(** * Chatcat: the Socket.IO relay of [Backend/server.js] and the call
      life cycle of [mern_chat_frontend/src/App.jsx]

    The relay is modelled over the state Socket.IO keeps for it: for
    every connected socket the set [socket.rooms].  A handler is a
    computation that may change that state, appends what it emits and
    logs to a trace, and may stop with a TypeError.  The order in which
    a JavaScript [Set] is iterated is not tracked (rooms are [gset]s);
    the statements below count events per socket and never depend on
    that order. *)

From stdpp Require Import gmap strings list fin_maps.

(** * Computations with a state, a trace and exceptions

    Both programs are written as event handlers that read and write
    shared state, emit packets, write to the console and may throw. *)
Module Eff.

Record Ran (S O A : Type) := {
  value : option A;       (* [None]: an exception left the computation *)
  after : S;
  trace : list O;
}.
Arguments value {S O A}.
Arguments after {S O A}.
Arguments trace {S O A}.

Definition Eff (S O A : Type) := S → Ran S O A.

Section ops.
Context {S O : Type}.

Definition ret {A} (a : A) : Eff S O A :=
  λ σ, {| value := Some a; after := σ; trace := [] |}.

Definition throw {A} : Eff S O A :=
  λ σ, {| value := None; after := σ; trace := [] |}.

Definition bind {A B} (m : Eff S O A) (k : A → Eff S O B) : Eff S O B :=
  λ σ,
    let r := m σ in
    match value r with
    | None => {| value := None; after := after r; trace := trace r |}
    | Some a =>
        let r' := k a (after r) in
        {| value := value r'; after := after r'; trace := trace r ++ trace r' |}
    end.

Definition get : Eff S O S :=
  λ σ, {| value := Some σ; after := σ; trace := [] |}.

Definition modify (f : S → S) : Eff S O unit :=
  λ σ, {| value := Some tt; after := f σ; trace := [] |}.

Definition tell (o : O) : Eff S O unit :=
  λ σ, {| value := Some tt; after := σ; trace := [o] |}.

(** [try { m } catch (err) { h }]: what [m] did before throwing stays. *)
Definition try_catch (m h : Eff S O unit) : Eff S O unit :=
  λ σ,
    let r := m σ in
    match value r with
    | Some _ => r
    | None =>
        let r' := h (after r) in
        {| value := value r'; after := after r'; trace := trace r ++ trace r' |}
    end.

End ops.

#[export] Instance eff_ret {S O} : MRet (Eff S O) := @ret S O.
#[export] Instance eff_bind {S O} : MBind (Eff S O) := λ A B k m, bind m k.

(** [l.forEach(f)] *)
Fixpoint forEach {S O A} (l : list A) (f : A → Eff S O unit) : Eff S O unit :=
  match l with
  | [] => ret tt
  | x :: l' => f x ;; forEach l' f
  end.

(** How a finished run goes on: into [k], or past it when it threw. *)
Definition continue {S O A B} (r : Ran S O A) (k : A → Eff S O B)
  : Ran S O B :=
  match r with
  | {| value := Some a; after := σ; trace := t |} =>
      match k a σ with
      | {| value := v; after := σ'; trace := t' |} =>
          {| value := v; after := σ'; trace := t ++ t' |}
      end
  | {| value := None; after := σ; trace := t |} =>
      {| value := None; after := σ; trace := t |}
  end.

(** ... and into the handler [h] of a [catch] when it threw. *)
Definition recover {S O} (r : Ran S O unit) (h : Eff S O unit)
  : Ran S O unit :=
  match r with
  | {| value := Some a; after := σ; trace := t |} =>
      {| value := Some a; after := σ; trace := t |}
  | {| value := None; after := σ; trace := t |} =>
      match h σ with
      | {| value := v; after := σ'; trace := t' |} =>
          {| value := v; after := σ'; trace := t ++ t' |}
      end
  end.

(** [m] leaves the observation [f] of the state as it was. *)
Definition preserves {S O A X} (f : S → X) (m : Eff S O A) : Prop :=
  ∀ σ, f (after (m σ)) = f σ.

(** Everything [m] appends to the trace satisfies [P]. *)
Definition emits_only {S O A} (P : O → Prop) (m : Eff S O A) : Prop :=
  ∀ σ o, o ∈ trace (m σ) → P o.

(** [m] keeps the invariant [I] of the state. *)
Definition keeps {S O A} (I : S → Prop) (m : Eff S O A) : Prop :=
  ∀ σ, I σ → I (after (m σ)).

End Eff.

Module Relay.
Export Eff.

(** ** Values carried by the events *)

(** A populated user document; [_id] is what rooms are named after. *)
Record User := { _id : string; name : string }.

#[export] Instance User_eq_dec : EqDecision User.
Proof. solve_decision. Defined.

(** [message.chat]; [users] may be missing on the object. *)
Record Chat := { chat_id : string; users : option (list User) }.

(** The object passed to "new message". *)
Record Message := {
  message_id : string;
  sender : option User;
  content : string;
  chat : option Chat;
}.

(** The object passed to the call-signaling events; every field may be
    undefined on a given event. *)
Record CallData := {
  to : option string;
  from : option string;
  caller_name : option string;
  callType : option string;
  offer : option string;
  answer : option string;
  candidate : option string;
}.

Inductive Payload :=
| NoPayload
| OfMessage (message : Message)
| IncomingCall (from_ name_ callType_ : option string)
| FromOnly (from_ : option string)
| OfData (data : CallData)
| PeerSocket (socketId : string).

(** One packet written to one socket. *)
Record Emit := { target : string; event : string; payload : Payload }.

Inductive Output :=
| Sent (e : Emit)
| Logged (line : string).

(** ** Handlers as computations *)

(** [σ !! sid] is [socket.rooms] of the connected socket [sid]. *)
Abbreviation Adapter := (gmap string (gset string)).

Abbreviation Handler := (Eff Adapter Output).

Definition console_log (line : string) : Handler unit := tell (Logged line).

(** ** Socket.IO primitives *)

(** A new connection: the socket starts in the room named by its id. *)
Definition connect (sid : string) (σ : Adapter) : Adapter :=
  <[sid := {[sid]}]> σ.

(** After "disconnecting" the socket leaves all its rooms. *)
Definition disconnect (sid : string) (σ : Adapter) : Adapter :=
  delete sid σ.

(** The sockets currently in [room]. *)
Definition sockets_in (σ : Adapter) (room : string) : gset string :=
  dom (filter (λ kv, room ∈ kv.2) σ).

(** [socket.join(room)] *)
Definition join (sid room : string) : Handler unit :=
  λ σ, {| value := Some tt;
          after := <[sid := {[room]} ∪ σ !!! sid]> σ;
          trace := [] |}.

(** [socket.emit(ev, p)] *)
Definition socket_emit (sid ev : string) (p : Payload) : Handler unit :=
  λ σ, {| value := Some tt; after := σ;
          trace := [Sent {| target := sid; event := ev; payload := p |}] |}.

(** [io.to(room).emit(ev, p)]: one packet to every socket in the room,
    the emitting socket included when it is a member. *)
Definition io_to_emit (room ev : string) (p : Payload) : Handler unit :=
  λ σ, {| value := Some tt; after := σ;
          trace := (λ sid, Sent {| target := sid; event := ev; payload := p |})
                     <$> elements (sockets_in σ room) |}.

(** [io.to(undefined)] names no room. *)
Definition io_to_emit_opt (room : option string) (ev : string) (p : Payload)
  : Handler unit :=
  match room with
  | Some r => io_to_emit r ev p
  | None => ret tt
  end.

(** ** The handlers of [io.on("connection", ...)] *)

(** socket.on("setup"): [!userData?._id] holds for a missing object and
    for the empty string. *)
Definition on_setup (sid : string) (userData : option User) : Handler unit :=
  match userData with
  | None => ret tt
  | Some u =>
      if decide (_id u = "") then ret tt
      else join sid (_id u) ;;
           console_log "connected" ;;
           socket_emit sid "connected" NoPayload
  end.

(** socket.on("join chat") *)
Definition on_join_chat (sid roomId : string) : Handler unit :=
  join sid roomId ;; console_log "Joined chat room".

(** [message.sender._id]: a TypeError when [sender] is undefined. *)
Definition sender_id (message : Message) : Handler string :=
  match sender message with
  | Some s => ret (_id s)
  | None => throw
  end.

(** socket.on("new message") *)
Definition on_new_message (message : Message) : Handler unit :=
  match chat message ≫= users with
  | None => console_log "chat.users not defined."
  | Some us =>
      forEach us (λ user,
        s ← sender_id message;
        if decide (_id user = s) then ret tt
        else io_to_emit (_id user) "message received" (OfMessage message))
  end.

(** The call-signaling handlers. *)
Definition on_call_user (data : CallData) : Handler unit :=
  io_to_emit_opt (to data) "incoming-call"
    (IncomingCall (from data) (caller_name data) (callType data)).

Definition on_call_accepted (data : CallData) : Handler unit :=
  io_to_emit_opt (to data) "call-accepted" (FromOnly (from data)).

Definition on_prepare_call (data : CallData) : Handler unit :=
  io_to_emit_opt (to data) "prepare-call" (FromOnly (from data)).

Definition on_ready_for_offer (data : CallData) : Handler unit :=
  io_to_emit_opt (to data) "ready-for-offer" (FromOnly (from data)).

Definition on_webrtc_offer (data : CallData) : Handler unit :=
  io_to_emit_opt (to data) "webrtc-offer" (OfData data).

Definition on_webrtc_answer (data : CallData) : Handler unit :=
  io_to_emit_opt (to data) "webrtc-answer" (OfData data).

Definition on_webrtc_ice_candidate (data : CallData) : Handler unit :=
  io_to_emit_opt (to data) "webrtc-ice-candidate" (OfData data).

Definition on_end_call (data : CallData) : Handler unit :=
  io_to_emit_opt (to data) "end-call" (OfData data).

(** socket.on("disconnecting"): the socket is still in all its rooms. *)
Definition on_disconnecting (sid : string) : Handler unit :=
  λ σ,
    forEach (elements (σ !!! sid)) (λ room,
      if decide (room ≠ sid)
      then io_to_emit room "peer-disconnected" (PeerSocket sid)
      else ret tt) σ.

(** The eight handlers from "call-user" to "end-call". *)
Definition signaling : list (CallData → Handler unit) :=
  [on_call_user; on_call_accepted; on_prepare_call; on_ready_for_offer;
   on_webrtc_offer; on_webrtc_answer; on_webrtc_ice_candidate; on_end_call].

(** ** Reading a trace *)

Definition sent (t : list Output) : list Emit :=
  omap (λ o, match o with Sent e => Some e | Logged _ => None end) t.

Definition logged (t : list Output) : list string :=
  omap (λ o, match o with Logged l => Some l | Sent _ => None end) t.

(** The packets of a trace written to socket [sid]. *)
Definition received (sid : string) (t : list Output) : list Emit :=
  filter (λ e, target e = sid) (sent t).

(** The trace of [io.to(room).emit(ev, p)] for each of [rooms] in turn. *)
Definition broadcasts (σ : Adapter) (ev : string) (p : Payload)
    (rooms : list string) : list Output :=
  concat ((λ room, trace (io_to_emit room ev p σ)) <$> rooms).

(** The members a message is relayed to: all but the sender. *)
Definition others (s : User) (us : list User) : list User :=
  filter (λ u, _id u ≠ _id s) us.

(** The rooms of [sid], its own apart, that [x] is in as well. *)
Definition shared_rooms (σ : Adapter) (sid x : string) : list string :=
  filter (λ room, room ≠ sid ∧ x ∈ sockets_in σ room) (elements (σ !!! sid)).

End Relay.

(** * The call life cycle of [App.jsx]

    One browser tab: the call state of [ChatsPage], the mounted
    [CallModal] when there is one, the listeners the two components keep
    on the socket, and the media tracks and peer connections the browser
    has handed out.  An [async] handler runs as one step; what the
    browser answers to its requests during that step is the [Browser]
    argument.  The chat list, message history and layout are left out. *)
Module Call.
Export Eff.
Import Relay.

(** ** Browser objects *)

Inductive Kind := audio | video.

(** A MediaStreamTrack; [live = false] is readyState "ended". *)
Record Track := { kind : Kind; live : bool }.

Definition stop (t : Track) : Track := {| kind := kind t; live := false |}.

(** An RTCPeerConnection, as far as the handlers drive it. *)
Record PeerConnection := {
  closed : bool;
  localDescription : option string;
  remoteDescription : option string;
  senders : list nat;
  remoteCandidates : list string;
}.

Definition set_closed (k : PeerConnection) : PeerConnection :=
  {| closed := true; localDescription := localDescription k;
     remoteDescription := remoteDescription k; senders := senders k;
     remoteCandidates := remoteCandidates k |}.

Definition set_localDescription (d : string) (k : PeerConnection) :=
  {| closed := closed k; localDescription := Some d;
     remoteDescription := remoteDescription k; senders := senders k;
     remoteCandidates := remoteCandidates k |}.

Definition set_remoteDescription (d : string) (k : PeerConnection) :=
  {| closed := closed k; localDescription := localDescription k;
     remoteDescription := Some d; senders := senders k;
     remoteCandidates := remoteCandidates k |}.

Definition add_sender (t : nat) (k : PeerConnection) :=
  {| closed := closed k; localDescription := localDescription k;
     remoteDescription := remoteDescription k; senders := senders k ++ [t];
     remoteCandidates := remoteCandidates k |}.

Definition add_candidate (x : string) (k : PeerConnection) :=
  {| closed := closed k; localDescription := localDescription k;
     remoteDescription := remoteDescription k; senders := senders k;
     remoteCandidates := remoteCandidates k ++ [x] |}.

(** What the browser answers while one handler runs. *)
Record Browser := {
  grants_media : bool;         (* getUserMedia resolves *)
  accepts_description : bool;  (* the description passed in is well formed *)
  accepts_candidate : bool;    (* the candidate passed in is well formed *)
  creates : string;            (* what createOffer / createAnswer resolve to *)
}.

(** ** Component state *)

(** The call state of [ChatsPage], with the chat whose members
    [initiateCall] reads. *)
Record Page := {
  activeChat : option (list User);
  showCallModal : bool;
  caller : option User;
  callee : option User;
  callAccepted : bool;
  callType : string;
}.

(** One mounted [CallModal]: its refs and state.  [leave_to] is the
    target held by the [endCall] that [handlePeerLeave] closed over. *)
Record CallModal := {
  instance : nat;
  pc : option nat;
  localStream : option (list nat);
  remoteStream : option (list nat);
  inCall : bool;
  incoming : bool;
  hasLocalStream : bool;
  leave_to : option string;
}.

Definition set_pc (v : option nat) (m : CallModal) : CallModal :=
  {| instance := instance m; pc := v; localStream := localStream m;
     remoteStream := remoteStream m; inCall := inCall m;
     incoming := incoming m; hasLocalStream := hasLocalStream m;
     leave_to := leave_to m |}.

Definition set_localStream (ts : list nat) (m : CallModal) : CallModal :=
  {| instance := instance m; pc := pc m; localStream := Some ts;
     remoteStream := remoteStream m; inCall := inCall m;
     incoming := incoming m; hasLocalStream := true;
     leave_to := leave_to m |}.

Definition set_remoteStream (ts : list nat) (m : CallModal) : CallModal :=
  {| instance := instance m; pc := pc m; localStream := localStream m;
     remoteStream := Some ts; inCall := inCall m;
     incoming := incoming m; hasLocalStream := hasLocalStream m;
     leave_to := leave_to m |}.

Definition setInCall (b : bool) (m : CallModal) : CallModal :=
  {| instance := instance m; pc := pc m; localStream := localStream m;
     remoteStream := remoteStream m; inCall := b;
     incoming := incoming m; hasLocalStream := hasLocalStream m;
     leave_to := leave_to m |}.

Definition setIncoming (b : bool) (m : CallModal) : CallModal :=
  {| instance := instance m; pc := pc m; localStream := localStream m;
     remoteStream := remoteStream m; inCall := inCall m;
     incoming := b; hasLocalStream := hasLocalStream m;
     leave_to := leave_to m |}.

Definition set_leave_to (t : option string) (m : CallModal) : CallModal :=
  {| instance := instance m; pc := pc m; localStream := localStream m;
     remoteStream := remoteStream m; inCall := inCall m;
     incoming := incoming m; hasLocalStream := hasLocalStream m;
     leave_to := t |}.

(** What [startCall] closed over when the accepted-call effect ran. *)
Record Closure := { of_instance : nat; to_callee : User; with_video : bool }.

Record Client := {
  user : User;
  page : Page;
  modal : option CallModal;
  instances : nat;                 (* CallModals mounted so far *)
  tracks : list Track;             (* every track handed out, by index *)
  conns : list PeerConnection;     (* every connection created, by index *)
  prepare_listeners : nat;         (* socket.on("prepare-call"), never removed *)
  ready_once : list Closure;       (* socket.once("ready-for-offer") *)
  timers : list Closure;           (* setTimeout(() => startCall(), 100) *)
}.

Definition set_page (p : Page) (c : Client) : Client :=
  {| user := user c; page := p; modal := modal c; instances := instances c;
     tracks := tracks c; conns := conns c;
     prepare_listeners := prepare_listeners c; ready_once := ready_once c;
     timers := timers c |}.

Definition set_modal (m : option CallModal) (c : Client) : Client :=
  {| user := user c; page := page c; modal := m; instances := instances c;
     tracks := tracks c; conns := conns c;
     prepare_listeners := prepare_listeners c; ready_once := ready_once c;
     timers := timers c |}.

Definition set_instances (n : nat) (c : Client) : Client :=
  {| user := user c; page := page c; modal := modal c; instances := n;
     tracks := tracks c; conns := conns c;
     prepare_listeners := prepare_listeners c; ready_once := ready_once c;
     timers := timers c |}.

Definition set_tracks (ts : list Track) (c : Client) : Client :=
  {| user := user c; page := page c; modal := modal c;
     instances := instances c; tracks := ts; conns := conns c;
     prepare_listeners := prepare_listeners c; ready_once := ready_once c;
     timers := timers c |}.

Definition set_conns (ks : list PeerConnection) (c : Client) : Client :=
  {| user := user c; page := page c; modal := modal c;
     instances := instances c; tracks := tracks c; conns := ks;
     prepare_listeners := prepare_listeners c; ready_once := ready_once c;
     timers := timers c |}.

Definition set_prepare_listeners (n : nat) (c : Client) : Client :=
  {| user := user c; page := page c; modal := modal c;
     instances := instances c; tracks := tracks c; conns := conns c;
     prepare_listeners := n; ready_once := ready_once c;
     timers := timers c |}.

Definition set_ready_once (l : list Closure) (c : Client) : Client :=
  {| user := user c; page := page c; modal := modal c;
     instances := instances c; tracks := tracks c; conns := conns c;
     prepare_listeners := prepare_listeners c; ready_once := l;
     timers := timers c |}.

Definition set_timers (l : list Closure) (c : Client) : Client :=
  {| user := user c; page := page c; modal := modal c;
     instances := instances c; tracks := tracks c; conns := conns c;
     prepare_listeners := prepare_listeners c; ready_once := ready_once c;
     timers := l |}.

(** A tab that has logged in and opened [chat]; no call yet. *)
Definition init (u : User) (chat : option (list User)) : Client :=
  {| user := u;
     page := {| activeChat := chat; showCallModal := false; caller := None;
                callee := None; callAccepted := false; callType := "video" |};
     modal := None; instances := 0; tracks := []; conns := [];
     prepare_listeners := 0; ready_once := []; timers := [] |}.

(** ** What a step leaves behind *)

Inductive Out :=
| Emitted (ev : string) (data : CallData)   (* socket.emit(ev, data) *)
| ConsoleError (label : string).            (* console.error(label, err) *)

Abbreviation Act := (Eff Client Out).

Definition emit (ev : string) (data : CallData) : Act unit :=
  tell (Emitted ev data).

Definition console_error (label : string) : Act unit :=
  tell (ConsoleError label).

(** The object literal [{ to, from }]. *)
Definition to_from (t f : option string) : CallData :=
  {| to := t; from := f; caller_name := None; Relay.callType := None;
     offer := None; answer := None; candidate := None |}.

(** ** Refs and heap *)

(** The component instance [i] while it is mounted.  Once unmounted its
    [pc.current] is null and its state setters do nothing. *)
Definition mounted (i : nat) : Act (option CallModal) :=
  c ← get;
  ret (match modal c with
       | Some m => if decide (instance m = i) then Some m else None
       | None => None
       end).

Definition update_modal (i : nat) (f : CallModal → CallModal) : Act unit :=
  modify (λ c,
    match modal c with
    | Some m => if decide (instance m = i) then set_modal (Some (f m)) c else c
    | None => c
    end).

(** [pc.current.method(...)]: a TypeError when [pc.current] is null. *)
Definition pc_current (i : nat) : Act nat :=
  m ← mounted i;
  match m ≫= pc with
  | Some p => ret p
  | None => throw
  end.

Definition connection (p : nat) : Act PeerConnection :=
  c ← get;
  match conns c !! p with
  | Some k => ret k
  | None => throw
  end.

Definition update_connection (p : nat) (f : PeerConnection → PeerConnection)
  : Act unit :=
  modify (λ c, set_conns (alter f p (conns c)) c).

(** ** RTCPeerConnection and MediaDevices *)

Definition new_RTCPeerConnection : Act nat :=
  c ← get;
  modify (set_conns (conns c ++
    [{| closed := false; localDescription := None; remoteDescription := None;
        senders := []; remoteCandidates := [] |}])) ;;
  ret (length (conns c)).

Definition close (p : nat) : Act unit := update_connection p set_closed.

(** Rejected on a closed connection and for a description the browser
    does not accept (a missing one among them). *)
Definition setRemoteDescription (env : Browser) (p : nat) (d : option string)
  : Act unit :=
  k ← connection p;
  match d with
  | Some sdp =>
      if closed k then throw
      else if accepts_description env
           then update_connection p (set_remoteDescription sdp)
           else throw
  | None => throw
  end.

Definition setLocalDescription (p : nat) (d : string) : Act unit :=
  k ← connection p;
  if closed k then throw else update_connection p (set_localDescription d).

Definition createOffer (env : Browser) (p : nat) : Act string :=
  k ← connection p;
  if closed k then throw else ret (creates env).

(** An answer needs a remote offer to answer. *)
Definition createAnswer (env : Browser) (p : nat) : Act string :=
  k ← connection p;
  if closed k then throw
  else match remoteDescription k with
       | Some _ => ret (creates env)
       | None => throw
       end.

Definition addTrack (p t : nat) : Act unit :=
  k ← connection p;
  if closed k then throw else update_connection p (add_sender t).

(** Rejected with InvalidStateError while [remoteDescription] is null. *)
Definition addIceCandidate (env : Browser) (p : nat) (x : string) : Act unit :=
  k ← connection p;
  if closed k then throw
  else match remoteDescription k with
       | None => throw
       | Some _ =>
           if accepts_candidate env
           then update_connection p (add_candidate x)
           else throw
       end.

(** [{ audio: true, video: callType === "video" }] *)
Definition getUserMedia (env : Browser) (video_too : bool) : Act (list nat) :=
  if grants_media env then
    c ← get;
    let fresh := {| kind := audio; live := true |}
                 :: (if video_too then [{| kind := video; live := true |}]
                     else []) in
    modify (set_tracks (tracks c ++ fresh)) ;;
    ret (seq (length (tracks c)) (length fresh))
  else throw.

(** [stream.getTracks().forEach((t) => t.stop())] *)
Definition stop_tracks (ts : list nat) : Act unit :=
  forEach ts (λ t, modify (λ c, set_tracks (alter stop t (tracks c)) c)).

(** [MediaStream.addTrack] keeps a track it already holds once. *)
Definition stream_add (ts : list nat) (t : nat) : list nat :=
  if decide (t ∈ ts) then ts else ts ++ [t].

(** ** The effects of [CallModal] *)

(** [callee?._id || caller?._id]; the empty string is falsy. *)
Definition target_of (p : Page) : option string :=
  match callee p with
  | Some u => if decide (_id u = "") then _id <$> caller p else Some (_id u)
  | None => _id <$> caller p
  end.

Definition wants_video (p : Page) : bool := bool_decide (callType p = "video").

(** "Initialize PeerConnection" and its cleanup. *)
Definition pc_effect (i : nat) : Act unit :=
  p ← new_RTCPeerConnection;
  update_modal i (set_pc (Some p)).

Definition pc_cleanup (i : nat) : Act unit :=
  m ← mounted i;
  match m ≫= pc with
  | Some p => close p ;; update_modal i (set_pc None)
  | None => ret tt
  end.

(** "Listen for accepted call": [if (callee && callAccepted && !inCall)]
    schedule [startCall]. *)
Definition accepted_effect (i : nat) : Act unit :=
  c ← get;
  m ← mounted i;
  match callee (page c), m with
  | Some u, Some m =>
      if callAccepted (page c) && negb (inCall m)
      then modify (set_timers (timers c ++
             [{| of_instance := i; to_callee := u;
                 with_video := wants_video (page c) |}]))
      else ret tt
  | _, _ => ret tt
  end.

Definition mount : Act unit :=
  c ← get;
  let i := instances c in
  modify (set_instances (S i)) ;;
  modify (set_modal (Some
    {| instance := i; pc := None; localStream := None; remoteStream := None;
       inCall := false;
       incoming := match caller (page c) with Some _ => true | None => false end;
       hasLocalStream := false;
       leave_to := target_of (page c) |})) ;;
  pc_effect i ;;
  modify (set_prepare_listeners (S (prepare_listeners c))) ;;
  accepted_effect i.

Definition unmount (i : nat) : Act unit :=
  pc_cleanup i ;; modify (set_modal None).

(** React renders [ChatsPage] after its state was [old]; [fresh] says
    that [caller] was set to a newly built object.  The peer-connection
    effect depends on [caller] and [callee], the signaling effect on
    [callType], the accepted-call effect on [callee], [callAccepted] and
    [callType]. *)
Definition render (old : Page) (fresh : bool) : Act unit :=
  c ← get;
  let new := page c in
  match modal c, showCallModal new with
  | None, false => ret tt
  | None, true => mount
  | Some m, false => unmount (instance m)
  | Some m, true =>
      let i := instance m in
      (if fresh || negb (bool_decide (caller old = caller new))
             || negb (bool_decide (callee old = callee new))
       then pc_cleanup i ;; pc_effect i else ret tt) ;;
      (if bool_decide (callType old = callType new) then ret tt
       else update_modal i (set_leave_to (target_of new))) ;;
      (if bool_decide (callee old = callee new)
            && bool_decide (callAccepted old = callAccepted new)
            && bool_decide (callType old = callType new)
       then ret tt else accepted_effect i)
  end.

(** ** The handlers of [ChatsPage] *)

Definition closeCall : Act unit :=
  c ← get;
  let p := page c in
  modify (set_page
    {| activeChat := activeChat p; showCallModal := false; caller := None;
       callee := None; callAccepted := false; callType := callType p |}) ;;
  render p false.

Definition initiateCall (type : string) : Act unit :=
  c ← get;
  let p := page c in
  match activeChat p with
  | None => ret tt
  | Some us =>
      match find (λ u, bool_decide (_id u ≠ _id (user c))) us with
      | None => ret tt
      | Some otherUser =>
          modify (set_page
            {| activeChat := activeChat p; showCallModal := true;
               caller := caller p; callee := Some otherUser;
               callAccepted := false; callType := type |}) ;;
          emit "call-user"
            {| to := Some (_id otherUser); from := Some (_id (user c));
               caller_name := Some (name (user c));
               Relay.callType := Some type;
               offer := None; answer := None; candidate := None |} ;;
          render p false
      end
  end.

(** [callType || 'video'] *)
Definition handleIncomingCall (from_ name_ : string) (type : option string)
  : Act unit :=
  c ← get;
  let p := page c in
  modify (set_page
    {| activeChat := activeChat p; showCallModal := true;
       caller := Some {| _id := from_; name := name_ |}; callee := None;
       callAccepted := false;
       callType := match type with
                   | Some t => if decide (t = "") then "video" else t
                   | None => "video"
                   end |}) ;;
  render p true.

Definition handleCallAccepted : Act unit :=
  c ← get;
  let p := page c in
  modify (set_page
    {| activeChat := activeChat p; showCallModal := showCallModal p;
       caller := caller p; callee := callee p;
       callAccepted := true; callType := callType p |}) ;;
  render p false.

Definition handleEndCall : Act unit := closeCall.

(** ** The handlers of [CallModal] *)

Definition handleOffer (env : Browser) (i : nat) (data : CallData) : Act unit :=
  try_catch
    (p ← pc_current i;
     setRemoteDescription env p (offer data) ;;
     c ← get;
     stream ← getUserMedia env (wants_video (page c));
     update_modal i (set_localStream stream) ;;
     forEach stream (λ t, p ← pc_current i; addTrack p t) ;;
     p ← pc_current i;
     sdp ← createAnswer env p;
     p ← pc_current i;
     setLocalDescription p sdp ;;
     emit "webrtc-answer"
       {| to := from data; from := Some (_id (user c)); caller_name := None;
          Relay.callType := None; offer := None; answer := Some sdp;
          candidate := None |} ;;
     update_modal i (setInCall true))
    (console_error "handleOffer error").

Definition handleAnswer (env : Browser) (i : nat) (data : CallData) : Act unit :=
  try_catch
    (p ← pc_current i;
     setRemoteDescription env p (answer data) ;;
     update_modal i (setInCall true) ;;
     _ ← pc_current i;
     ret tt)
    (console_error "handleAnswer error").

Definition handleCandidate (env : Browser) (i : nat) (data : CallData)
  : Act unit :=
  try_catch
    (match candidate data with
     | Some x => p ← pc_current i; addIceCandidate env p x
     | None => ret tt
     end)
    (console_error "ICE candidate error").

(** [endCall] as built in a render whose [callee?._id || caller?._id]
    was [target]. *)
Definition endCall (i : nat) (target : option string) : Act unit :=
  m ← mounted i;
  (match m ≫= pc with Some p => close p | None => ret tt end) ;;
  (match m ≫= localStream with Some ts => stop_tracks ts | None => ret tt end) ;;
  (match m ≫= remoteStream with Some ts => stop_tracks ts | None => ret tt end) ;;
  emit "end-call" (to_from target None) ;;
  closeCall.

Definition handlePeerLeave (i : nat) : Act unit :=
  m ← mounted i;
  endCall i (m ≫= leave_to).

Definition acceptCall (i : nat) : Act unit :=
  c ← get;
  match caller (page c) with
  | Some u =>
      emit "call-accepted" (to_from (Some (_id u)) (Some (_id (user c)))) ;;
      update_modal i (setIncoming false)
  | None => throw
  end.

(** The callback [startCall] leaves with [socket.once]; nothing catches
    what it throws. *)
Definition send_offer (env : Browser) (k : Closure) : Act unit :=
  c ← get;
  p ← pc_current (of_instance k);
  sdp ← createOffer env p;
  p ← pc_current (of_instance k);
  setLocalDescription p sdp ;;
  emit "webrtc-offer"
    {| to := Some (_id (to_callee k)); from := Some (_id (user c));
       caller_name := None; Relay.callType := None; offer := Some sdp;
       answer := None; candidate := None |}.

Definition startCall (env : Browser) (k : Closure) : Act unit :=
  try_catch
    (c ← get;
     stream ← getUserMedia env (with_video k);
     update_modal (of_instance k) (set_localStream stream) ;;
     forEach stream (λ t, p ← pc_current (of_instance k); addTrack p t) ;;
     emit "prepare-call"
       (to_from (Some (_id (to_callee k))) (Some (_id (user c)))) ;;
     modify (λ c, set_ready_once (ready_once c ++ [k]) c))
    (console_error "startCall error:").

(** [pc.current.ontrack]: [e.streams[0]] is read after [remoteStream]
    was created. *)
Definition ontrack (i : nat) (streams : list (list nat)) : Act unit :=
  m ← mounted i;
  let held := default [] (m ≫= remoteStream) in
  match streams with
  | ts :: _ => update_modal i (set_remoteStream (foldl stream_add held ts))
  | [] => update_modal i (set_remoteStream held) ;; throw
  end.

(** [pc.current.onicecandidate] *)
Definition onicecandidate (found : option string) : Act unit :=
  c ← get;
  match found with
  | Some x =>
      emit "webrtc-ice-candidate"
        {| to := target_of (page c); from := Some (_id (user c));
           caller_name := None; Relay.callType := None; offer := None;
           answer := None; candidate := Some x |}
  | None => ret tt
  end.

(** ** Dispatch *)

(** The events the relay sends to a client during a call. *)
Inductive Event :=
| incoming_call (from_ name_ : string) (type : option string)
| call_accepted
| end_call
| prepare_call (from_ : option string)
| ready_for_offer
| webrtc_offer (data : CallData)
| webrtc_answer (data : CallData)
| webrtc_ice_candidate (data : CallData)
| peer_disconnected.

(** The listeners registered on the socket: those of [ChatsPage] always,
    those of the signaling effect while a [CallModal] is mounted, one
    "prepare-call" listener per modal ever mounted, and the pending
    [once] callbacks. *)
Definition receive (env : Browser) (ev : Event) : Act unit :=
  c ← get;
  match ev with
  | incoming_call f n t => handleIncomingCall f n t
  | call_accepted => handleCallAccepted
  | end_call => handleEndCall
  | prepare_call f =>
      forEach (replicate (prepare_listeners c) ())
        (λ _, emit "ready-for-offer" (to_from f None))
  | ready_for_offer =>
      modify (set_ready_once []) ;;
      forEach (ready_once c) (λ k, try_catch (send_offer env k) (ret tt))
  | webrtc_offer data =>
      match modal c with
      | Some m => handleOffer env (instance m) data
      | None => ret tt
      end
  | webrtc_answer data =>
      match modal c with
      | Some m => handleAnswer env (instance m) data
      | None => ret tt
      end
  | webrtc_ice_candidate data =>
      match modal c with
      | Some m => handleCandidate env (instance m) data
      | None => ret tt
      end
  | peer_disconnected =>
      match modal c with
      | Some m => handlePeerLeave (instance m)
      | None => ret tt
      end
  end.

(** Everything that can happen in the tab during a call. *)
Inductive Action :=
| click_call (type : string)            (* the call buttons of ChatView *)
| click_accept                          (* Accept, shown while [incoming] *)
| click_end                             (* Decline / End Call *)
| timer_fires                           (* the 100 ms timer of startCall *)
| track_arrives (streams : list (list nat))
| candidate_found (found : option string)
| received (ev : Event).

Definition step (env : Browser) (a : Action) : Act unit :=
  c ← get;
  match a with
  | click_call type => initiateCall type
  | click_accept =>
      match modal c with
      | Some m => if incoming m then acceptCall (instance m) else ret tt
      | None => ret tt
      end
  | click_end =>
      match modal c with
      | Some m => endCall (instance m) (target_of (page c))
      | None => ret tt
      end
  | timer_fires =>
      match timers c with
      | k :: rest => modify (set_timers rest) ;; startCall env k
      | [] => ret tt
      end
  | track_arrives streams =>
      match modal c with
      | Some m => ontrack (instance m) streams
      | None => ret tt
      end
  | candidate_found found =>
      match modal c with
      | Some _ => onicecandidate found
      | None => ret tt
      end
  | received ev => receive env ev
  end.

(** Run a script of actions, each with the browser's answers, keeping
    the state; what was emitted is dropped. *)
Definition run (script : list (Browser * Action)) (c : Client) : Client :=
  foldl (λ c ea, after (step ea.1 ea.2 c)) c script.

(** ** The phase a tab shows *)

(** The modal's status line: "is calling..." while [incoming], the call
    timer once [inCall], "Connecting..." otherwise; no modal, no call. *)
Inductive Phase := Ended | Ringing | Connecting | Active.

Definition phase (c : Client) : Phase :=
  match modal c with
  | None => Ended
  | Some m => if incoming m then Ringing
              else if inCall m then Active else Connecting
  end.

(** The state [closeCall] leaves. *)
Definition ended (c : Client) : bool :=
  bool_decide (modal c = None)
  && negb (showCallModal (page c))
  && bool_decide (caller (page c) = None)
  && bool_decide (callee (page c) = None)
  && negb (callAccepted (page c)).

(** The tracks of a stream that are still live. *)
Definition live_tracks (c : Client) (ts : list nat) : list nat :=
  filter (λ t, live <$> tracks c !! t = Some true) ts.

(** The candidates each connection has applied, oldest first. *)
Definition candidates_of (c : Client) : list (list string) :=
  remoteCandidates <$> conns c.

(** The events a stale call may still receive. *)
Definition stale (ev : Event) : bool :=
  match ev with
  | end_call | webrtc_offer _ | webrtc_answer _ | webrtc_ice_candidate _ => true
  | _ => false
  end.

(** What a step emitted, by event name. *)
Definition emitted (t : list Out) : list (string * CallData) :=
  omap (λ o, match o with
             | Emitted ev d => Some (ev, d)
             | ConsoleError _ => None
             end) t.

Definition errors (t : list Out) : list string :=
  omap (λ o, match o with
             | ConsoleError l => Some l
             | Emitted _ _ => None
             end) t.

(** [callType || 'video'] *)
Definition type_or_video (t : option string) : string :=
  match t with
  | Some t => if decide (t = "") then "video" else t
  | None => "video"
  end.

(** React has rendered: the modal is mounted exactly when
    [showCallModal] says so. *)
Definition rendered (c : Client) : bool :=
  match modal c with
  | Some _ => showCallModal (page c)
  | None => negb (showCallModal (page c))
  end.

(** Every peer connection that is still open is the one [pc.current]
    of the mounted modal refers to. *)
Definition one_open (c : Client) : Prop :=
  ∀ p k, conns c !! p = Some k → closed k = false → modal c ≫= pc = Some p.

(** Each modal ever mounted has left one "prepare-call" listener. *)
Definition one_listener_each (c : Client) : bool :=
  bool_decide (prepare_listeners c = instances c).

End Call.

(** * A running example

    Alice ([u1]) is connected from one tab, Bob ([u2]) from two; Alice's
    tab and Bob's first tab have both opened the chats [c1] and [c2]. *)
Module Example.
Import Relay Call.

Definition u1 : User := {| _id := "u1"; name := "alice" |}.
Definition u2 : User := {| _id := "u2"; name := "bob" |}.

Definition office : Adapter :=
  foldl (λ σ (h : Handler unit), after (h σ)) (connect "B2" (connect "B" (connect "A" ∅)))
    [on_setup "A" (Some u1); on_join_chat "A" "c1"; on_join_chat "A" "c2";
     on_setup "B" (Some u2); on_join_chat "B" "c1"; on_join_chat "B" "c2";
     on_setup "B2" (Some u2)].

Definition hello : Message :=
  {| message_id := "m1"; sender := Some u1; content := "hi";
     chat := Some {| chat_id := "c1"; users := Some [u1; u2] |} |}.

(** A message whose chat has an empty member list. *)
Definition unaddressed : Message :=
  {| message_id := "m2"; sender := Some u1; content := "hi";
     chat := Some {| chat_id := "c3"; users := Some [] |} |}.

(** A message to Alice and Bob that lost its sender. *)
Definition orphan : Message :=
  {| message_id := "m3"; sender := None; content := "hi";
     chat := Some {| chat_id := "c1"; users := Some [u1; u2] |} |}.

(** Alice dials [u3], who has no socket. *)
Definition dial_u3 : CallData :=
  {| to := Some "u3"; from := Some "u1"; caller_name := Some "alice";
     Relay.callType := Some "video"; offer := None; answer := None;
     candidate := None |}.

(** A browser that grants and accepts everything. *)
Definition willing : Browser :=
  {| grants_media := true; accepts_description := true;
     accepts_candidate := true; creates := "sdp" |}.

(** A browser that refuses camera and microphone. *)
Definition refusing : Browser :=
  {| grants_media := false; accepts_description := true;
     accepts_candidate := true; creates := "sdp" |}.

Definition from_u1 : CallData :=
  {| to := Some "u2"; from := Some "u1"; caller_name := None;
     Relay.callType := None; offer := Some "sdp"; answer := None;
     candidate := None |}.

Definition from_u2 : CallData :=
  {| to := Some "u1"; from := Some "u2"; caller_name := None;
     Relay.callType := None; offer := None; answer := Some "sdp";
     candidate := None |}.

Definition candidate_k1 : CallData :=
  {| to := Some "u2"; from := Some "u1"; caller_name := None;
     Relay.callType := None; offer := None; answer := None;
     candidate := Some "k1" |}.

(** Alice's tab: she has dialled Bob and Bob has accepted. *)
Definition alice_accepted : Client :=
  run [(willing, click_call "video"); (willing, received call_accepted)]
    (init u1 (Some [u1; u2])).

(** ... [startCall] has run ... *)
Definition alice_prepared : Client :=
  run [(willing, timer_fires)] alice_accepted.

(** ... Bob was ready and the offer is out ... *)
Definition alice_offered : Client :=
  run [(willing, received ready_for_offer)] alice_prepared.

(** ... and Bob's answer has arrived. *)
Definition alice_answered : Client :=
  run [(willing, received (webrtc_answer from_u2))] alice_offered.

(** Alice's tab after she has hung up. *)
Definition alice_hung_up : Client :=
  run [(willing, click_end)] alice_answered.

(** Bob's tab: Alice's call is ringing, then Bob accepts. *)
Definition bob_ringing : Client :=
  run [(willing, received (incoming_call "u1" "alice" (Some "video")))]
    (init u2 (Some [u1; u2])).

Definition bob_accepted : Client :=
  run [(willing, click_accept)] bob_ringing.

End Example.

(** * The relay: facts *)

Section relay_facts.
Import Relay.
Implicit Types (σ : Adapter) (sid room ev : string) (p : Payload).

Lemma elem_of_sockets_in σ room sid :
  sid ∈ sockets_in σ room ↔ ∃ rs, σ !! sid = Some rs ∧ room ∈ rs.
Proof.
  unfold sockets_in. rewrite elem_of_dom. split.
  - intros [rs Hrs]. apply map_lookup_filter_Some in Hrs as [? ?]. eauto.
  - intros (rs & ? & ?). exists rs. by apply map_lookup_filter_Some.
Qed.

Lemma sent_Sent_fmap (f : string → Emit) (l : list string) :
  sent ((λ x, Sent (f x)) <$> l) = f <$> l.
Proof. induction l as [|x l IH]; [done|]. cbn. f_equal. exact IH. Qed.

Lemma sent_app t1 t2 : sent (t1 ++ t2) = sent t1 ++ sent t2.
Proof. apply omap_app. Qed.

Lemma logged_app t1 t2 : logged (t1 ++ t2) = logged t1 ++ logged t2.
Proof. apply omap_app. Qed.

Lemma received_app sid t1 t2 :
  received sid (t1 ++ t2) = received sid t1 ++ received sid t2.
Proof. unfold received. by rewrite sent_app, filter_app. Qed.

(** A packet addressed per element of a duplicate-free list reaches
    [sid] once when [sid] is listed and never otherwise. *)
Lemma received_once sid ev p (l : list string) :
  NoDup l →
  length (filter (λ e, target e = sid)
            ((λ x, {| target := x; event := ev; payload := p |}) <$> l))
  = if decide (sid ∈ l) then 1 else 0.
Proof.
  induction 1 as [|x l Hx _ IH].
  - cbn. case_decide; [set_solver|done].
  - rewrite fmap_cons, filter_cons. cbn [target].
    repeat case_decide; simpl; rewrite IH; repeat case_decide;
      try done; set_solver.
Qed.

Lemma io_to_emit_received σ room ev p sid :
  length (received sid (trace (io_to_emit room ev p σ)))
  = if decide (sid ∈ sockets_in σ room) then 1 else 0.
Proof.
  unfold received, io_to_emit. simpl.
  rewrite (sent_Sent_fmap (λ x, {| target := x; event := ev; payload := p |})).
  rewrite received_once by apply NoDup_elements.
  destruct (decide (sid ∈ sockets_in σ room)).
  - by rewrite decide_True by (by apply elem_of_elements).
  - by rewrite decide_False by (by rewrite elem_of_elements).
Qed.

Lemma io_to_emit_sent σ room ev p e :
  e ∈ sent (trace (io_to_emit room ev p σ)) →
  event e = ev ∧ payload e = p ∧ target e ∈ sockets_in σ room.
Proof.
  unfold io_to_emit. simpl.
  rewrite (sent_Sent_fmap (λ x, {| target := x; event := ev; payload := p |})).
  intros (x & -> & Hx)%list_elem_of_fmap. simpl.
  by apply elem_of_elements in Hx.
Qed.

Lemma io_to_emit_length σ room ev p :
  length (sent (trace (io_to_emit room ev p σ))) = size (sockets_in σ room).
Proof.
  unfold io_to_emit. simpl.
  rewrite (sent_Sent_fmap (λ x, {| target := x; event := ev; payload := p |})).
  by rewrite length_fmap.
Qed.

(** A loop whose body neither throws nor touches the adapter. *)
Lemma forEach_quiet {A} (l : list A) (f : A → Handler unit) σ :
  (∀ x, x ∈ l → value (f x σ) = Some tt ∧ after (f x σ) = σ) →
  forEach l f σ
  = {| value := Some tt; after := σ;
       trace := concat ((λ x, trace (f x σ)) <$> l) |}.
Proof.
  induction l as [|x l IH]; intros Hf; [done|].
  destruct (Hf x) as [Hv Ha]; [set_solver|].
  simpl. unfold mbind, eff_bind, bind. rewrite Hv, Ha.
  rewrite IH by (intros; apply Hf; set_solver). done.
Qed.

(** ** Broadcasts to a list of rooms *)

Lemma broadcasts_cons σ ev p room rooms :
  broadcasts σ ev p (room :: rooms)
  = trace (io_to_emit room ev p σ) ++ broadcasts σ ev p rooms.
Proof. done. Qed.

Lemma broadcasts_logged σ ev p rooms : logged (broadcasts σ ev p rooms) = [].
Proof.
  induction rooms as [|room rooms IH]; [done|].
  rewrite broadcasts_cons, logged_app, IH, app_nil_r.
  unfold io_to_emit. cbn [trace]. by induction (elements _).
Qed.

Lemma broadcasts_sent σ ev p rooms e :
  e ∈ sent (broadcasts σ ev p rooms) →
  event e = ev ∧ payload e = p ∧
  ∃ room, room ∈ rooms ∧ target e ∈ sockets_in σ room.
Proof.
  induction rooms as [|room rooms IH]; [by intros ?%elem_of_nil|].
  rewrite broadcasts_cons, sent_app, elem_of_app. intros [He|He].
  - apply io_to_emit_sent in He as (? & ? & ?).
    repeat split; [done..|]. exists room. split; [left|done].
  - destruct (IH He) as (? & ? & room' & ? & ?).
    repeat split; [done..|]. exists room'. split; [by right|done].
Qed.

Lemma broadcasts_received σ ev p rooms x :
  length (received x (broadcasts σ ev p rooms))
  = length (filter (λ room, x ∈ sockets_in σ room) rooms).
Proof.
  induction rooms as [|room rooms IH]; [done|].
  rewrite broadcasts_cons, received_app, length_app, IH, filter_cons.
  rewrite io_to_emit_received. by case_decide.
Qed.

Lemma broadcasts_length σ ev p rooms :
  length (sent (broadcasts σ ev p rooms))
  = sum_list ((λ room, size (sockets_in σ room)) <$> rooms).
Proof.
  induction rooms as [|room rooms IH]; [done|].
  rewrite broadcasts_cons, sent_app, length_app, IH, io_to_emit_length.
  done.
Qed.

Lemma broadcasts_ext σ σ' ev p rooms :
  (∀ room, room ∈ rooms → sockets_in σ' room = sockets_in σ room) →
  broadcasts σ' ev p rooms = broadcasts σ ev p rooms.
Proof.
  induction rooms as [|room rooms IH]; intros Hrooms; [done|].
  rewrite !broadcasts_cons, IH by (intros; apply Hrooms; by right).
  unfold io_to_emit. cbn [trace]. rewrite Hrooms; [done|left].
Qed.

(** ** "new message" *)

Lemma on_new_message_run σ message us s :
  chat message ≫= users = Some us →
  sender message = Some s →
  on_new_message message σ
  = {| value := Some tt; after := σ;
       trace := broadcasts σ "message received" (OfMessage message)
                  (_id <$> others s us) |}.
Proof.
  intros Hus Hs. unfold on_new_message. rewrite Hus. clear Hus.
  rewrite forEach_quiet.
  - f_equal. unfold others, broadcasts.
    induction us as [|u us IH]; [done|].
    rewrite fmap_cons, filter_cons. cbn [concat].
    rewrite IH. clear IH.
    unfold sender_id. rewrite Hs.
    unfold mbind, eff_bind, bind, ret. cbn [value after trace].
    case_decide; case_decide; try congruence; done.
  - intros u _. unfold sender_id. rewrite Hs.
    unfold mbind, eff_bind, bind, ret. cbn [value after trace].
    by case_decide.
Qed.

Lemma others_length s us :
  NoDup (_id <$> us) → _id s ∈ _id <$> us →
  length (others s us) = length us - 1.
Proof.
  unfold others. induction us as [|u us IH]; [by intros _ ?%elem_of_nil|].
  rewrite fmap_cons, NoDup_cons, filter_cons. intros [Hu Hnd] Hin.
  case_decide as Hne.
  - apply elem_of_cons in Hin as [?|Hin]; [congruence|].
    simpl. rewrite IH by done.
    destruct us; [by apply elem_of_nil in Hin|simpl; lia].
  - simpl. rewrite Nat.sub_0_r.
    clear IH Hin. rewrite Hne in Hu. clear Hne Hnd.
    induction us as [|v us IH]; [done|].
    rewrite fmap_cons, not_elem_of_cons in Hu. destruct Hu as [Hv Hu].
    rewrite filter_cons, decide_True by congruence.
    simpl. f_equal. by apply IH.
Qed.

Lemma sockets_in_join_ne σ sid room room' :
  room' ≠ room →
  sockets_in (after (join sid room σ)) room' = sockets_in σ room'.
Proof.
  intros Hne. apply set_eq. intros x. rewrite !elem_of_sockets_in. simpl.
  destruct (decide (sid = x)) as [->|Hx].
  - rewrite lookup_insert_eq, lookup_total_alt. split.
    + intros (rs & [= <-] & Hin). destruct (σ !! x) as [rs|]; simpl in Hin.
      * exists rs. split; [done|]. apply elem_of_union in Hin as [Hin|]; [|done].
        by apply elem_of_singleton in Hin.
      * apply elem_of_union in Hin as [Hin|Hin].
        -- by apply elem_of_singleton in Hin.
        -- by apply not_elem_of_empty in Hin.
    + intros (rs & Hrs & Hin). rewrite Hrs. eexists. split; [done|].
      simpl. apply elem_of_union. by right.
  - by rewrite lookup_insert_ne.
Qed.

Lemma after_on_join_chat σ sid room :
  after (on_join_chat sid room σ) = <[sid := {[room]} ∪ σ !!! sid]> σ.
Proof. done. Qed.

(** ** "disconnecting" *)

Lemma on_disconnecting_run σ sid :
  on_disconnecting sid σ
  = {| value := Some tt; after := σ;
       trace := broadcasts σ "peer-disconnected" (PeerSocket sid)
                  (filter (λ room, room ≠ sid) (elements (σ !!! sid))) |}.
Proof.
  unfold on_disconnecting. rewrite forEach_quiet.
  - f_equal. unfold broadcasts.
    induction (elements (σ !!! sid)) as [|room rooms IH]; [done|].
    rewrite fmap_cons, filter_cons. cbn [concat]. rewrite IH.
    by case_decide.
  - intros room _. by case_decide.
Qed.

Lemma shared_rooms_filter σ sid x :
  filter (λ room, x ∈ sockets_in σ room)
    (filter (λ room, room ≠ sid) (elements (σ !!! sid)))
  = shared_rooms σ sid x.
Proof.
  unfold shared_rooms.
  induction (elements (σ !!! sid)) as [|room rooms IH]; [done|].
  rewrite !filter_cons. repeat case_decide; rewrite ?filter_cons;
    repeat case_decide; rewrite ?IH; try done; naive_solver.
Qed.

End relay_facts.

(** * The relay: the claims *)

Section relay_claims.
Import Relay Example.
Implicit Types (σ : Adapter) (sid room ev : string) (p : Payload).

(** C2, as amended.  A message whose member list holds distinct members,
    the sender among them, is relayed to the identity room of each of
    the N-1 other members and to nobody else: every packet is "message
    received" with the message itself; a socket gets one packet per
    other member whose identity room it is in; the packets number the
    sockets in those rooms, so N-1 when each other member has exactly
    one socket; a socket in none of those rooms, such as a tab of the
    sender registered only as the sender, gets nothing; and joining a
    room that is not a member id changes nothing. *)
Theorem new_message_fanout σ message us s :
  chat message ≫= users = Some us →
  sender message = Some s →
  NoDup (_id <$> us) →
  _id s ∈ _id <$> us →
  let r := on_new_message message σ in
  value r = Some tt ∧ after r = σ ∧ logged (trace r) = [] ∧
  length (others s us) = length us - 1 ∧
  (∀ e, e ∈ sent (trace r) →
     event e = "message received" ∧ payload e = OfMessage message) ∧
  (∀ x, length (received x (trace r))
        = length (filter (λ u, x ∈ sockets_in σ (_id u)) (others s us))) ∧
  length (sent (trace r))
  = sum_list ((λ u, size (sockets_in σ (_id u))) <$> others s us) ∧
  ((∀ u, u ∈ others s us → size (sockets_in σ (_id u)) = 1) →
   length (sent (trace r)) = length us - 1) ∧
  (∀ x, (∀ u, u ∈ others s us → x ∉ sockets_in σ (_id u)) →
        received x (trace r) = []) ∧
  (∀ x room, room ∉ _id <$> us →
     trace (on_new_message message (after (on_join_chat x room σ)))
     = trace r).
Proof.
  intros Hus Hs Hnd Hin r. subst r.
  rewrite (on_new_message_run σ message us s) by done. cbn [value after trace].
  assert (Hlen : length (sent (broadcasts σ "message received"
                   (OfMessage message) (_id <$> others s us)))
                 = sum_list ((λ u, size (sockets_in σ (_id u))) <$> others s us)).
  { rewrite broadcasts_length. by rewrite <- list_fmap_compose. }
  assert (Hrec : ∀ x, length (received x (broadcasts σ "message received"
                   (OfMessage message) (_id <$> others s us)))
                 = length (filter (λ u, x ∈ sockets_in σ (_id u)) (others s us))).
  { intros x. rewrite broadcasts_received. clear Hlen.
    induction (others s us) as [|u l IH]; [done|].
    rewrite fmap_cons, !filter_cons. case_decide; cbn [length]; by rewrite IH. }
  split_and!; try done.
  - apply broadcasts_logged.
  - by apply others_length.
  - intros e He. by apply broadcasts_sent in He as (? & ? & _).
  - intros Hone. rewrite Hlen, <- (others_length s us) by done.
    clear Hlen Hrec.
    induction (others s us) as [|u l IH]; [done|].
    rewrite fmap_cons. cbn [sum_list length].
    rewrite Hone by left. rewrite IH; [done|]. intros; apply Hone. by right.
  - intros x Hx. apply length_zero_iff_nil. rewrite Hrec.
    clear Hlen Hrec.
    induction (others s us) as [|u l IH]; [done|].
    rewrite filter_cons, decide_False by (apply Hx; left).
    apply IH. intros; apply Hx. by right.
  - intros x room Hroom.
    rewrite (on_new_message_run _ message us s) by done. cbn [trace].
    apply broadcasts_ext. intros room' Hroom'.
    rewrite after_on_join_chat. apply (sockets_in_join_ne σ x room room').
    intros ->. apply Hroom.
    apply list_elem_of_fmap in Hroom' as (u & -> & Hu%list_elem_of_filter).
    apply list_elem_of_fmap. exists u. by destruct Hu.
Qed.

(** The theorem at Alice's "hi" to the chat of Alice and Bob. *)
Lemma new_message_fanout_hello :
  length (sent (trace (on_new_message hello office)))
  = sum_list ((λ u, size (sockets_in office (_id u))) <$> others u1 [u1; u2]).
Proof.
  refine (proj1 (proj2 (proj2 (proj2 (proj2 (proj2 (proj2
    (new_message_fanout office hello [u1; u2] u1 eq_refl eq_refl _ _)))))))).
  - apply (bool_decide_unpack _). vm_compute. exact I.
  - apply (bool_decide_unpack _). vm_compute. exact I.
Defined.

(** C2 as stated fails: the chat has N = 2 members, each with a
    connected socket, and Alice's message produces two "message
    received" packets, one for each of Bob's two tabs. *)
Lemma new_message_two_tabs :
  chat hello ≫= users = Some [u1; u2] ∧
  elements (sockets_in office (_id u1)) = ["A"] ∧
  elements (sockets_in office (_id u2)) = ["B2"; "B"] ∧
  target <$> sent (trace (on_new_message hello office)) = ["B2"; "B"] ∧
  length (sent (trace (on_new_message hello office))) ≠ length [u1; u2] - 1.
Proof. split_and!; [by vm_compute..|]. vm_compute. lia. Qed.

(** C3, as amended.  When a socket is disconnecting, the relay
    broadcasts "peer-disconnected", carrying the socket's id, to each
    room the socket is in other than the room of its own id.  Another
    socket gets one packet per such room that it shares with the
    leaving socket: at least one exactly when it shares one, and as many
    as it shares. *)
Theorem disconnecting_notifies σ sid :
  let r := on_disconnecting sid σ in
  value r = Some tt ∧ after r = σ ∧ logged (trace r) = [] ∧
  (∀ e, e ∈ sent (trace r) →
     event e = "peer-disconnected" ∧ payload e = PeerSocket sid) ∧
  (∀ x, x ≠ sid →
     length (received x (trace r)) = length (shared_rooms σ sid x)) ∧
  (∀ x, x ≠ sid →
     received x (trace r) ≠ [] ↔
     ∃ room, room ∈ σ !!! sid ∧ room ≠ sid ∧ x ∈ sockets_in σ room).
Proof.
  intros r. subst r. rewrite on_disconnecting_run. cbn [value after trace].
  assert (Hrec : ∀ x, length (received x (broadcasts σ "peer-disconnected"
                   (PeerSocket sid)
                   (filter (λ room, room ≠ sid) (elements (σ !!! sid)))))
                 = length (shared_rooms σ sid x)).
  { intros x. by rewrite broadcasts_received, shared_rooms_filter. }
  split_and!; try done.
  - apply broadcasts_logged.
  - intros e He. by apply broadcasts_sent in He as (? & ? & _).
  - intros x _. rewrite <- length_zero_iff_nil, Hrec, length_zero_iff_nil.
    unfold shared_rooms. split.
    + intros Hne. clear Hrec.
      destruct (filter _ _) as [|room l] eqn:Hf; [done|].
      assert (Hin : room ∈ room :: l) by apply list_elem_of_here. rewrite <- Hf in Hin.
      apply list_elem_of_filter in Hin as [[? ?] ?%elem_of_elements].
      by exists room.
    + intros (room & Hroom & ? & ?) Hnil. clear Hrec.
      assert (Hin : room ∈ filter (λ room, room ≠ sid ∧ x ∈ sockets_in σ room)
                       (elements (σ !!! sid))).
      { apply list_elem_of_filter. by rewrite elem_of_elements. }
      rewrite Hnil in Hin. by apply elem_of_nil in Hin.
Qed.

(** C3 as stated fails: Bob's first tab shares the chats [c1] and [c2]
    with Alice's tab and gets two "peer-disconnected" packets when
    Alice's tab disconnects. *)
Lemma disconnecting_twice_to_B :
  "B" ≠ "A" ∧
  shared_rooms office "A" "B" = ["c1"; "c2"] ∧
  length (received "B" (trace (on_disconnecting "A" office))) = 2.
Proof. split_and!; [done|by vm_compute..]. Qed.

(** C8, as amended.  A message without a member list (no [chat], or a
    [chat] without [users]) is dropped with one console line: nothing is
    emitted, nothing changes and nothing is thrown, whoever the sender
    is.  A message with an empty member list is dropped as well, but
    then nothing is logged either. *)
Theorem new_message_without_members σ id s text cid :
  on_new_message
    {| message_id := id; sender := s; content := text; chat := None |} σ
  = {| value := Some tt; after := σ;
       trace := [Logged "chat.users not defined."] |} ∧
  on_new_message
    {| message_id := id; sender := s; content := text;
       chat := Some {| chat_id := cid; users := None |} |} σ
  = {| value := Some tt; after := σ;
       trace := [Logged "chat.users not defined."] |} ∧
  on_new_message
    {| message_id := id; sender := s; content := text;
       chat := Some {| chat_id := cid; users := Some [] |} |} σ
  = {| value := Some tt; after := σ; trace := [] |}.
Proof. done. Qed.

(** C8 as stated fails: the message with an empty member list emits
    nothing, and writes nothing to the console. *)
Lemma new_message_empty_not_logged :
  chat unaddressed ≫= users = Some [] ∧
  sent (trace (on_new_message unaddressed office)) = [] ∧
  logged (trace (on_new_message unaddressed office)) = [].
Proof. done. Qed.

(** C9.  Joining a room a second time leaves the adapter, and so the
    members of every room, as the first join left them; a broadcast to
    the room then reaches the socket exactly once, and any message is
    relayed exactly as after the first join. *)
Theorem join_chat_idempotent σ sid room :
  let once := after (on_join_chat sid room σ) in
  let twice := after (on_join_chat sid room once) in
  twice = once ∧
  (∀ r, sockets_in twice r = sockets_in once r) ∧
  sid ∈ sockets_in once room ∧
  (∀ ev p, length (received sid (trace (io_to_emit room ev p twice))) = 1) ∧
  (∀ message,
     trace (on_new_message message twice) = trace (on_new_message message once)).
Proof.
  intros once twice.
  assert (Heq : twice = once).
  { subst twice once. rewrite !after_on_join_chat.
    rewrite lookup_total_insert_eq, insert_insert_eq. f_equal.
    by rewrite (assoc_L (∪)), (idemp_L (∪)). }
  assert (Hin : sid ∈ sockets_in once room).
  { subst once. rewrite after_on_join_chat. apply elem_of_sockets_in.
    eexists. rewrite lookup_insert_eq. split; [done|].
    apply elem_of_union. left. by apply elem_of_singleton. }
  rewrite Heq. split_and!; try done.
  intros ev p. rewrite io_to_emit_received. by rewrite decide_True.
Qed.

(** C10.  A call-signaling event whose target room has no socket in it
    is relayed to nobody: each of the eight handlers emits nothing (so
    nothing goes back to the sender either), logs nothing, throws
    nothing and leaves the adapter as it was. *)
Theorem signaling_to_offline σ data t :
  to data = Some t →
  sockets_in σ t = ∅ →
  Forall (λ h : CallData → Handler unit,
            h data σ = {| value := Some tt; after := σ; trace := [] |})
    signaling.
Proof.
  intros Hto Hnone. unfold signaling.
  repeat apply Forall_cons_2; [..|apply Forall_nil_2];
    unfold on_call_user, on_call_accepted, on_prepare_call,
      on_ready_for_offer, on_webrtc_offer, on_webrtc_answer,
      on_webrtc_ice_candidate, on_end_call;
    rewrite Hto; unfold io_to_emit_opt, io_to_emit;
    by rewrite Hnone, elements_empty.
Qed.

(** The theorem at Alice dialling [u3], who has no socket. *)
Lemma signaling_to_offline_u3 :
  Forall (λ h : CallData → Handler unit,
            h dial_u3 office
            = {| value := Some tt; after := office; trace := [] |})
    signaling.
Proof.
  apply (signaling_to_offline office dial_u3 "u3"); [reflexivity|].
  by vm_compute.
Defined.

End relay_claims.

(** * The call life cycle: facts *)

Section eff_facts.
Import Eff.
Context {S O : Type}.
Implicit Types (σ : S).

Lemma preserves_ret {A X} (f : S → X) (a : A) :
  preserves f (mret a : Eff S O A).
Proof. done. Qed.

Lemma preserves_throw {A X} (f : S → X) : preserves f (throw : Eff S O A).
Proof. done. Qed.

Lemma preserves_get {X} (f : S → X) : preserves f (get : Eff S O S).
Proof. done. Qed.

Lemma preserves_tell {X} (f : S → X) (o : O) : preserves f (tell o).
Proof. done. Qed.

Lemma preserves_modify {X} (f : S → X) (g : S → S) :
  (∀ σ, f (g σ) = f σ) → preserves f (modify g : Eff S O unit).
Proof. intros Hg σ. apply Hg. Qed.

Lemma preserves_bind {A B X} (f : S → X) (m : Eff S O A) (k : A → Eff S O B) :
  preserves f m → (∀ a, preserves f (k a)) → preserves f (m ≫= k).
Proof.
  intros Hm Hk σ. unfold mbind, eff_bind, bind.
  destruct (value (m σ)) as [a|] eqn:Hv; cbn [after]; [|apply Hm].
  by rewrite Hk, Hm.
Qed.

Lemma preserves_try_catch {X} (f : S → X) (m h : Eff S O unit) :
  preserves f m → preserves f h → preserves f (try_catch m h).
Proof.
  intros Hm Hh σ. unfold try_catch.
  destruct (value (m σ)) eqn:Hv; cbn [after]; [apply Hm|].
  by rewrite Hh, Hm.
Qed.

Lemma preserves_forEach {A X} (f : S → X) (l : list A) (g : A → Eff S O unit) :
  (∀ x, preserves f (g x)) → preserves f (forEach l g).
Proof.
  intros Hg. induction l as [|x l IH]; [done|].
  cbn [forEach]. apply preserves_bind; [apply Hg|done].
Qed.

Lemma emits_only_ret {A} (P : O → Prop) (a : A) :
  emits_only P (mret a : Eff S O A).
Proof. by intros σ o ?%elem_of_nil. Qed.

Lemma emits_only_throw {A} (P : O → Prop) : emits_only P (throw : Eff S O A).
Proof. by intros σ o ?%elem_of_nil. Qed.

Lemma emits_only_get (P : O → Prop) : emits_only P (get : Eff S O S).
Proof. by intros σ o ?%elem_of_nil. Qed.

Lemma emits_only_modify (P : O → Prop) (g : S → S) :
  emits_only P (modify g : Eff S O unit).
Proof. by intros σ o ?%elem_of_nil. Qed.

Lemma emits_only_tell (P : O → Prop) (o : O) :
  P o → emits_only P (tell o : Eff S O unit).
Proof. intros Ho σ o' Hin. apply list_elem_of_singleton in Hin. by subst. Qed.

Lemma emits_only_bind {A B} (P : O → Prop) (m : Eff S O A) (k : A → Eff S O B) :
  emits_only P m → (∀ a, emits_only P (k a)) → emits_only P (m ≫= k).
Proof.
  intros Hm Hk σ o. unfold mbind, eff_bind, bind.
  destruct (value (m σ)) as [a|] eqn:Hv; cbn [trace]; [|apply Hm].
  intros [?|?]%elem_of_app; [by eapply Hm|by eapply Hk].
Qed.

Lemma emits_only_try_catch (P : O → Prop) (m h : Eff S O unit) :
  emits_only P m → emits_only P h → emits_only P (try_catch m h).
Proof.
  intros Hm Hh σ o. unfold try_catch.
  destruct (value (m σ)) eqn:Hv; cbn [trace]; [apply Hm|].
  intros [?|?]%elem_of_app; [by eapply Hm|by eapply Hh].
Qed.

Lemma emits_only_forEach {A} (P : O → Prop) (l : list A) (g : A → Eff S O unit) :
  (∀ x, emits_only P (g x)) → emits_only P (forEach l g).
Proof.
  intros Hg. induction l as [|x l IH]; [apply (emits_only_ret P tt)|].
  cbn [forEach]. apply emits_only_bind; [apply Hg|done].
Qed.

Lemma keeps_ret {A} (I : S → Prop) (a : A) : keeps I (mret a : Eff S O A).
Proof. by intros σ. Qed.

Lemma keeps_throw {A} (I : S → Prop) : keeps I (throw : Eff S O A).
Proof. by intros σ. Qed.

Lemma keeps_get (I : S → Prop) : keeps I (get : Eff S O S).
Proof. by intros σ. Qed.

Lemma keeps_tell (I : S → Prop) (o : O) : keeps I (tell o).
Proof. by intros σ. Qed.

Lemma keeps_modify (I : S → Prop) (g : S → S) :
  (∀ σ, I σ → I (g σ)) → keeps I (modify g : Eff S O unit).
Proof. intros Hg σ. apply Hg. Qed.

Lemma keeps_bind {A B} (I : S → Prop) (m : Eff S O A) (k : A → Eff S O B) :
  keeps I m → (∀ a, keeps I (k a)) → keeps I (m ≫= k).
Proof.
  intros Hm Hk σ Hσ. unfold mbind, eff_bind, bind.
  destruct (value (m σ)) as [a|] eqn:Hv; cbn [after]; [|by apply Hm].
  by apply Hk, Hm.
Qed.

Lemma keeps_try_catch (I : S → Prop) (m h : Eff S O unit) :
  keeps I m → keeps I h → keeps I (try_catch m h).
Proof.
  intros Hm Hh σ Hσ. unfold try_catch.
  destruct (value (m σ)) eqn:Hv; cbn [after]; [by apply Hm|].
  by apply Hh, Hm.
Qed.

Lemma keeps_forEach {A} (I : S → Prop) (l : list A) (g : A → Eff S O unit) :
  (∀ x, keeps I (g x)) → keeps I (forEach l g).
Proof.
  intros Hg. induction l as [|x l IH]; [by intros σ|].
  cbn [forEach]. apply keeps_bind; [apply Hg|done].
Qed.

Lemma bind_continue {A B} (m : Eff S O A) (k : A → Eff S O B) σ :
  (m ≫= k) σ = continue (m σ) k.
Proof.
  unfold mbind, eff_bind, bind, continue.
  destruct (m σ) as [[a|] σ' t]; cbn; [|done]. by destruct (k a σ').
Qed.

Lemma try_catch_recover (m h : Eff S O unit) σ :
  try_catch m h σ = recover (m σ) h.
Proof.
  unfold try_catch, recover.
  destruct (m σ) as [[a|] σ' t]; cbn; [done|]. by destruct (h σ').
Qed.

End eff_facts.

(** Walk through a handler, one construct at a time. *)
Ltac walk_with known leaf :=
  repeat first
    [ known
    | lazymatch goal with
      | |- Eff.preserves _ (mbind _ _) => apply preserves_bind
      | |- Eff.preserves _ (Eff.try_catch _ _) => apply preserves_try_catch
      | |- Eff.preserves _ (Eff.forEach _ _) => apply preserves_forEach
      | |- Eff.preserves _ (mret _) => apply preserves_ret
      | |- Eff.preserves _ (Eff.ret _) => apply preserves_ret
      | |- Eff.preserves _ Eff.throw => apply preserves_throw
      | |- Eff.preserves _ Eff.get => apply preserves_get
      | |- Eff.preserves _ (Eff.tell _) => apply preserves_tell
      | |- Eff.preserves _ (Eff.modify _) => apply preserves_modify; leaf
      | |- Eff.emits_only _ (mbind _ _) => apply emits_only_bind
      | |- Eff.emits_only _ (Eff.try_catch _ _) => apply emits_only_try_catch
      | |- Eff.emits_only _ (Eff.forEach _ _) => apply emits_only_forEach
      | |- Eff.emits_only _ (mret _) => apply emits_only_ret
      | |- Eff.emits_only _ (Eff.ret _) => apply emits_only_ret
      | |- Eff.emits_only _ Eff.throw => apply emits_only_throw
      | |- Eff.emits_only _ Eff.get => apply emits_only_get
      | |- Eff.emits_only _ (Eff.modify _) => apply emits_only_modify
      | |- Eff.emits_only _ (Eff.tell _) => apply emits_only_tell; leaf
      | |- Eff.keeps _ (mbind _ _) => apply keeps_bind
      | |- Eff.keeps _ (Eff.try_catch _ _) => apply keeps_try_catch
      | |- Eff.keeps _ (Eff.forEach _ _) => apply keeps_forEach
      | |- Eff.keeps _ (mret _) => apply keeps_ret
      | |- Eff.keeps _ (Eff.ret _) => apply keeps_ret
      | |- Eff.keeps _ Eff.throw => apply keeps_throw
      | |- Eff.keeps _ Eff.get => apply keeps_get
      | |- Eff.keeps _ (Eff.tell _) => apply keeps_tell
      | |- Eff.keeps _ (Eff.modify _) => apply keeps_modify; leaf
      | |- ∀ _, _ => intro
      | |- _ => case_match
      end ].

Ltac walk leaf := walk_with ltac:(fail) leaf.

Module CallTactics.
Import Relay Call.

Ltac unfold_call :=
  unfold step, receive, handleOffer, handleAnswer, handleCandidate,
    handlePeerLeave, endCall, acceptCall, send_offer, startCall, ontrack,
    onicecandidate, handleEndCall, handleCallAccepted, handleIncomingCall,
    initiateCall, closeCall, render, mount, unmount, accepted_effect,
    pc_cleanup, pc_effect, getUserMedia, addIceCandidate, addTrack,
    createAnswer, createOffer, setLocalDescription, setRemoteDescription,
    close, new_RTCPeerConnection, update_connection, connection, pc_current,
    update_modal, mounted, emit, console_error.

(** Evaluate as far as the hypotheses determine the run: one [bind] at a
    time, rewriting what is known wherever the run waits for it. *)
Ltac crank :=
  repeat (rewrite ?bind_continue, ?try_catch_recover; cbn;
    repeat match goal with
      | |- context [decide (?a = ?a)] =>
          rewrite (decide_True (P := a = a)) by done
      | |- context [alter ?f ?p ?l !! ?p] =>
          rewrite (list_lookup_alter_eq f l p)
      | H : ?x = _ |- context [?x] => rewrite H
      end).

End CallTactics.

Section call_facts.
Import Relay Call CallTactics.
Implicit Types (c : Client) (m : CallModal) (k : PeerConnection) (env : Browser).

Lemma handleCandidate_dropped env c m p k data x :
  modal c = Some m → pc m = Some p → conns c !! p = Some k →
  remoteDescription k = None →
  candidate data = Some x →
  step env (received (webrtc_ice_candidate data)) c
  = {| value := Some tt; after := c;
       trace := [ConsoleError "ICE candidate error"] |}.
Proof.
  intros Hm Hp Hk Hd Hx. destruct c. simpl in *. subst.
  unfold_call. crank. destruct (closed k); done.
Qed.

Lemma handleCandidate_applied env c m p k data x :
  modal c = Some m → pc m = Some p → conns c !! p = Some k →
  closed k = false → is_Some (remoteDescription k) →
  accepts_candidate env = true →
  candidate data = Some x →
  step env (received (webrtc_ice_candidate data)) c
  = {| value := Some tt;
       after := set_conns (alter (add_candidate x) p (conns c)) c;
       trace := [] |}.
Proof.
  intros Hm Hp Hk Hc [d Hd] He Hx. destruct c. simpl in *. subst.
  unfold_call. crank. done.
Qed.

Lemma handleCandidate_none env c data :
  candidate data = None →
  step env (received (webrtc_ice_candidate data)) c
  = {| value := Some tt; after := c; trace := [] |}.
Proof.
  intros Hx. unfold_call. crank. by destruct (modal c).
Qed.

(** Candidates that arrive once the remote description is set are
    applied in arrival order, each once. *)
Lemma candidates_in_order env ds : ∀ c m p k,
  modal c = Some m → pc m = Some p → conns c !! p = Some k →
  closed k = false → is_Some (remoteDescription k) →
  accepts_candidate env = true →
  let c' := run ((λ d, (env, received (webrtc_ice_candidate d))) <$> ds) c in
  modal c' = Some m ∧
  remoteCandidates <$> conns c' !! p
  = Some (remoteCandidates k ++ omap candidate ds).
Proof.
  induction ds as [|d ds IH]; intros c m p k Hm Hp Hk Hc Hd He; cbn zeta.
  - cbn. by rewrite Hk, app_nil_r.
  - rewrite fmap_cons. cbn [run foldl fst snd].
    replace (omap candidate (d :: ds))
      with (match candidate d with
            | Some x => x :: omap candidate ds
            | None => omap candidate ds
            end) by done.
    destruct (candidate d) as [x|] eqn:Hx.
    + rewrite (handleCandidate_applied env c m p k d x) by done.
      cbn [after].
      destruct (IH (set_conns (alter (add_candidate x) p (conns c)) c)
                  m p (add_candidate x k)) as [Hm' Hk']; try done.
      { destruct c. cbn in *. by rewrite list_lookup_alter_eq, Hk. }
      split; [done|]. unfold run in Hk'. rewrite Hk'. cbn.
      by rewrite <- (assoc_L (++)).
    + rewrite (handleCandidate_none env c d) by done.
      cbn [after]. by apply IH.
Qed.

Lemma fmap_alter_candidates (f : PeerConnection → PeerConnection)
    (p : nat) (ks : list PeerConnection) :
  (∀ k, remoteCandidates (f k) = remoteCandidates k) →
  remoteCandidates <$> alter f p ks = remoteCandidates <$> ks.
Proof.
  intros Hf. revert p. induction ks as [|k ks IH]; intros [|p]; cbn;
    rewrite ?Hf, ?IH; done.
Qed.

(** Applying a description applies no candidate. *)
Lemma description_handlers_keep_candidates env data :
  preserves candidates_of (step env (received (webrtc_offer data))) ∧
  preserves candidates_of (step env (received (webrtc_answer data))).
Proof.
  split; unfold_call;
    walk ltac:(intros; unfold candidates_of; repeat case_match; cbn;
               rewrite ?fmap_alter_candidates; done).
Qed.

(** ** Ending a call *)

Lemma stop_tracks_run ts : ∀ c,
  stop_tracks ts c
  = {| value := Some tt;
       after := set_tracks (foldl (λ l t, alter stop t l) (tracks c) ts) c;
       trace := [] |}.
Proof.
  unfold stop_tracks. induction ts as [|t ts IH]; intros c.
  - by destruct c.
  - cbn [forEach foldl]. rewrite bind_continue. cbn. by rewrite IH.
Qed.

(** A track is live after some tracks were stopped only if it was live
    before and is not one of them. *)
Lemma live_after_stop (ts : list nat) : ∀ (l : list Track) (t : nat),
  live <$> foldl (λ l t, alter stop t l) l ts !! t = Some true →
  live <$> l !! t = Some true ∧ t ∉ ts.
Proof.
  induction ts as [|t' ts IH]; intros l t Hlive; cbn [foldl] in Hlive.
  - split; [done|apply not_elem_of_nil].
  - apply IH in Hlive as [Hlive Hnot].
    destruct (decide (t' = t)) as [->|Hne].
    + rewrite list_lookup_alter_eq in Hlive. by destruct (l !! t).
    + rewrite list_lookup_alter_ne in Hlive by done.
      split; [done|]. by apply not_elem_of_cons.
Qed.

Lemma filter_none {A} (P : A → Prop) `{∀ x, Decision (P x)} (l : list A) :
  (∀ x, x ∈ l → ¬ P x) → filter P l = [].
Proof.
  induction l as [|x l IH]; intros Hl; [done|].
  rewrite filter_cons, decide_False by (apply Hl; left).
  apply IH. intros; apply Hl. by right.
Qed.

Lemma stopped_not_live (l : list Track) (ts more : list nat) :
  filter (λ t, live <$> foldl (λ l t, alter stop t l)
                          (foldl (λ l t, alter stop t l) l ts) more !! t
               = Some true) ts = [].
Proof.
  apply filter_none. intros t Hin.
  intros [Hlive _]%live_after_stop. by apply live_after_stop in Hlive as [_ ?].
Qed.

(** The local hang-up: everything is released. *)
Lemma endCall_releases c m target :
  modal c = Some m →
  let r := endCall (instance m) target c in
  value r = Some tt ∧
  trace r = [Emitted "end-call" (to_from target None)] ∧
  ended (after r) = true ∧
  (∀ ts, localStream m = Some ts → live_tracks (after r) ts = []) ∧
  (∀ p k, pc m = Some p → conns c !! p = Some k →
          closed <$> conns (after r) !! p = Some true).
Proof.
  intros Hm. destruct c. simpl in *. subst.
  unfold_call.
  destruct (pc m) as [p|] eqn:Hp, (localStream m) as [ls|] eqn:Hl,
    (remoteStream m) as [rs|] eqn:Hr;
    crank; rewrite ?stop_tracks_run; crank; rewrite ?stop_tracks_run; crank;
    (split_and!; [done|done|done| |]);
    try (intros ? ? [= <-] Hk; by rewrite !list_lookup_alter_eq, Hk);
    try (by intros ? ? [=]);
    try (by intros ? [=]);
    intros ? [= <-]; unfold live_tracks; cbn;
    first [apply stopped_not_live | apply (stopped_not_live _ _ [])].
Qed.

(** The remote hang-up stops no track. *)
Lemma remote_end_keeps_tracks env :
  preserves tracks (step env (received end_call)).
Proof.
  unfold_call. walk ltac:(intros; repeat case_match; done).
Qed.

(** Whatever closes the call leaves the state [closeCall] leaves. *)
Lemma closeCall_ended c : ended (after (closeCall c)) = true.
Proof.
  destruct c as [u pg [m|] n ts ks pl ro ti]; unfold_call; crank;
    [destruct (pc m) eqn:Hp; crank|]; done.
Qed.

(** ** Starting a call *)

(** Nothing changes who is logged in. *)
Lemma step_keeps_user env a : preserves user (step env a).
Proof.
  destruct a as [| | | | | |[]]; unfold_call; unfold stop_tracks;
    walk ltac:(intros; repeat case_match; done).
Qed.

Lemma startCall_run env c cl rest m p k :
  timers c = cl :: rest → modal c = Some m → instance m = of_instance cl →
  pc m = Some p → conns c !! p = Some k → closed k = false →
  grants_media env = true →
  let r := step env timer_fires c in
  let n := length (tracks c) in
  let stream := if with_video cl then [n; S n] else [n] in
  value r = Some tt ∧
  trace r = [Emitted "prepare-call"
               (to_from (Some (_id (to_callee cl))) (Some (_id (user c))))] ∧
  tracks (after r)
  = tracks c ++ {| kind := audio; live := true |}
      :: (if with_video cl then [{| kind := video; live := true |}] else []) ∧
  modal (after r) = Some (set_localStream stream m) ∧
  conns (after r) !! p = Some (foldl (λ k t, add_sender t k) k stream) ∧
  ready_once (after r) = ready_once c ++ [cl] ∧
  timers (after r) = rest.
Proof.
  intros Ht Hm Hi Hp Hk Hc He. destruct c. simpl in *. subst.
  unfold_call. destruct cl as [i u v]. simpl in *. subst.
  destruct v; crank; done.
Qed.

Lemma ready_run env c cl m p k :
  ready_once c = [cl] → modal c = Some m → instance m = of_instance cl →
  pc m = Some p → conns c !! p = Some k → closed k = false →
  step env (received ready_for_offer) c
  = {| value := Some tt;
       after := set_conns (alter (set_localDescription (creates env)) p (conns c))
                  (set_ready_once [] c);
       trace := [Emitted "webrtc-offer"
                   {| to := Some (_id (to_callee cl));
                      from := Some (_id (user c)); caller_name := None;
                      Relay.callType := None; offer := Some (creates env);
                      answer := None; candidate := None |}] |}.
Proof.
  intros Hr Hm Hi Hp Hk Hc. destruct c. simpl in *. subst.
  unfold_call. destruct cl as [i u v]. simpl in *. subst.
  crank. done.
Qed.

(** Nothing but the callback on "ready-for-offer" sends an offer. *)
Lemma offer_only_on_ready env a :
  a ≠ received ready_for_offer →
  emits_only (λ o, ∀ d, o ≠ Emitted "webrtc-offer" d) (step env a).
Proof.
  intros Ha. destruct a as [| | | | | |[]]; try done;
    unfold_call; unfold stop_tracks;
    walk ltac:(by intros ? [=]).
Qed.

Lemma forEach_tell (n : nat) (o : Out) c :
  forEach (replicate n ()) (λ _, tell o) c
  = {| value := Some tt; after := c; trace := replicate n o |}.
Proof.
  induction n as [|n IH]; [done|].
  cbn [replicate forEach]. rewrite bind_continue. cbn. by rewrite IH.
Qed.

Lemma prepare_replies env f c :
  step env (received (prepare_call f)) c
  = {| value := Some tt; after := c;
       trace := replicate (prepare_listeners c)
                  (Emitted "ready-for-offer" (to_from f None)) |}.
Proof.
  unfold_call. crank. by rewrite forEach_tell.
Qed.

(** ** Becoming active *)

Lemma phase_update_modal i (f : CallModal → CallModal) c :
  (∀ m, incoming (f m) = incoming m ∧ inCall (f m) = inCall m) →
  phase (match modal c with
         | Some m =>
             if decide (instance m = i) then set_modal (Some (f m)) c else c
         | None => c
         end) = phase c.
Proof.
  intros Hf. unfold phase. destruct (modal c) as [m|] eqn:Hm; [|by rewrite Hm].
  case_decide; cbn; [|by rewrite Hm]. by destruct (Hf m) as [-> ->].
Qed.

Lemma ontrack_keeps_phase env streams :
  preserves phase (step env (track_arrives streams)).
Proof.
  unfold_call. walk ltac:(intros; by apply phase_update_modal).
Qed.

Lemma handleAnswer_run env c m p k data sdp :
  modal c = Some m → pc m = Some p → conns c !! p = Some k →
  closed k = false → accepts_description env = true →
  answer data = Some sdp →
  step env (received (webrtc_answer data)) c
  = {| value := Some tt;
       after := set_modal (Some (setInCall true m))
                  (set_conns (alter (set_remoteDescription sdp) p (conns c)) c);
       trace := [] |}.
Proof.
  intros Hm Hp Hk Hc He Hd. destruct c. simpl in *. subst.
  unfold_call. crank. done.
Qed.

Lemma handleOffer_run env c m p k data sdp :
  modal c = Some m → pc m = Some p → conns c !! p = Some k →
  closed k = false → accepts_description env = true →
  grants_media env = true →
  offer data = Some sdp →
  let r := step env (received (webrtc_offer data)) c in
  let n := length (tracks c) in
  let stream := if wants_video (page c) then [n; S n] else [n] in
  value r = Some tt ∧
  trace r = [Emitted "webrtc-answer"
               {| to := from data; from := Some (_id (user c));
                  caller_name := None; Relay.callType := None; offer := None;
                  answer := Some (creates env); candidate := None |}] ∧
  modal (after r) = Some (setInCall true (set_localStream stream m)) ∧
  conns (after r) !! p
  = Some (set_localDescription (creates env)
            (foldl (λ k t, add_sender t k) (set_remoteDescription sdp k) stream)).
Proof.
  intros Hm Hp Hk Hc He Hg Hd. destruct c. simpl in *. subst.
  unfold_call. destruct (wants_video page0) eqn:Hv; crank; done.
Qed.

(** ** After the end *)

Lemma stale_ignored env c ev :
  ended c = true → stale ev = true →
  step env (received ev) c = {| value := Some tt; after := c; trace := [] |}.
Proof.
  unfold ended. intros Hc Hev.
  repeat (apply andb_prop in Hc as [Hc ?]).
  apply bool_decide_eq_true in Hc.
  destruct c as [u [chat show cr ce acc type] mo n ts ks pl ro ti].
  cbn in *. repeat match goal with
    | H : negb _ = true |- _ => apply negb_true_iff in H
    | H : bool_decide _ = true |- _ => apply bool_decide_eq_true in H
    end. subst.
  destruct ev; try done; unfold_call; crank; done.
Qed.

End call_facts.

(** * The call life cycle: the claims *)

Section call_claims.
Import Relay Call Example CallTactics.
Implicit Types (c : Client) (m : CallModal) (k : PeerConnection) (env : Browser).

(** C1, as amended.  On a mounted call whose peer connection is open:
    a candidate that arrives before the remote description is set is
    handed to the connection, which rejects it; the error is logged and
    the candidate is gone, the state being exactly as before.
    Candidates that arrive once the remote description is set are
    applied exactly once each, in arrival order.  Applying an offer or an
    answer applies no candidate. *)
Theorem candidates_follow_description env c m p k :
  modal c = Some m → pc m = Some p → conns c !! p = Some k →
  closed k = false →
  (remoteDescription k = None →
   ∀ data x, candidate data = Some x →
     step env (received (webrtc_ice_candidate data)) c
     = {| value := Some tt; after := c;
          trace := [ConsoleError "ICE candidate error"] |}) ∧
  (is_Some (remoteDescription k) → accepts_candidate env = true →
   ∀ ds,
     let c' := run ((λ d, (env, received (webrtc_ice_candidate d))) <$> ds) c in
     modal c' = Some m ∧
     remoteCandidates <$> conns c' !! p
     = Some (remoteCandidates k ++ omap candidate ds)) ∧
  (∀ data,
     candidates_of (after (step env (received (webrtc_offer data)) c))
     = candidates_of c ∧
     candidates_of (after (step env (received (webrtc_answer data)) c))
     = candidates_of c).
Proof.
  intros Hm Hp Hk Hc. split_and!.
  - intros Hd data x Hx. by eapply handleCandidate_dropped.
  - intros Hd He ds. by eapply candidates_in_order.
  - intros data.
    destruct (description_handlers_keep_candidates env data) as [Ho Ha].
    split; [apply Ho|apply Ha].
Qed.

(** The theorem at Bob's tab right after he accepted: no remote
    description yet. *)
Lemma candidates_follow_description_bob :
  step willing (received (webrtc_ice_candidate candidate_k1)) bob_accepted
  = {| value := Some tt; after := bob_accepted;
       trace := [ConsoleError "ICE candidate error"] |}.
Proof.
  refine (proj1 (candidates_follow_description willing bob_accepted
            (setIncoming false
               {| instance := 0; pc := Some 0; localStream := None;
                  remoteStream := None; inCall := false; incoming := true;
                  hasLocalStream := false; leave_to := Some "u1" |})
            0
            {| closed := false; localDescription := None;
               remoteDescription := None; senders := [];
               remoteCandidates := [] |}
            eq_refl eq_refl eq_refl eq_refl) eq_refl candidate_k1 "k1" eq_refl).
Defined.

(** C1 as stated fails: candidate [k1] reaches Bob's tab before Alice's
    offer.  It is rejected and logged; when the offer is then applied
    the remote description is set and no candidate has been applied. *)
Lemma candidate_before_offer_lost :
  let early := step willing (received (webrtc_ice_candidate candidate_k1))
                 bob_accepted in
  let later := step willing (received (webrtc_offer from_u1)) (after early) in
  remoteDescription <$> conns bob_accepted !! 0 = Some None ∧
  errors (trace early) = ["ICE candidate error"] ∧
  after early = bob_accepted ∧
  errors (trace later) = [] ∧
  remoteDescription <$> conns (after later) !! 0 = Some (Some "sdp") ∧
  remoteCandidates <$> conns (after later) !! 0 = Some [].
Proof. by vm_compute. Qed.

(** C4: the claim holds for the local hang-up and fails for the remote
    one.  Receiving "end-call" never stops a track, whatever the state:
    in Alice's tab, in a call with camera and microphone on, it closes
    the modal and the peer connection and leaves both local tracks
    live, where her own hang-up from the same state stops them. *)
Theorem remote_end_stops_no_track :
  (∀ env c, tracks (after (step env (received end_call) c)) = tracks c) ∧
  phase alice_answered = Active ∧
  localStream <$> modal alice_answered = Some (Some [0; 1]) ∧
  live_tracks alice_answered [0; 1] = [0; 1] ∧
  (let c' := after (step willing (received end_call) alice_answered) in
   phase c' = Ended ∧ closed <$> conns c' !! 0 = Some true ∧
   live_tracks c' [0; 1] = [0; 1]) ∧
  (let c' := after (step willing click_end alice_answered) in
   phase c' = Ended ∧ closed <$> conns c' !! 0 = Some true ∧
   live_tracks c' [0; 1] = []).
Proof.
  split; [intros env c; apply remote_end_keeps_tracks|]. by vm_compute.
Qed.

(** C5, as amended.  Once the accepted-call timer fires, the caller
    first acquires its local media (audio always, video iff the call is
    a video call) and attaches the tracks to the peer connection, and
    then emits "prepare-call"; no offer exists yet.  Upon
    "ready-for-offer" it creates the offer, sets it as its local
    description and sends it, acquiring nothing more.  No other step of
    the tab sends an offer, and a tab answers every "prepare-call" with
    one "ready-for-offer" per listener it has registered. *)
Theorem offer_follows_ready env c cl rest m p k :
  timers c = cl :: rest → ready_once c = [] →
  modal c = Some m → instance m = of_instance cl →
  pc m = Some p → conns c !! p = Some k → closed k = false →
  grants_media env = true →
  let r1 := step env timer_fires c in
  let r2 := step env (received ready_for_offer) (after r1) in
  let n := length (tracks c) in
  let stream := if with_video cl then [n; S n] else [n] in
  trace r1 = [Emitted "prepare-call"
                (to_from (Some (_id (to_callee cl))) (Some (_id (user c))))] ∧
  tracks (after r1)
  = tracks c ++ {| kind := audio; live := true |}
      :: (if with_video cl then [{| kind := video; live := true |}] else []) ∧
  localStream <$> modal (after r1) = Some (Some stream) ∧
  senders <$> conns (after r1) !! p = Some (senders k ++ stream) ∧
  localDescription <$> conns (after r1) !! p = Some (localDescription k) ∧
  trace r2 = [Emitted "webrtc-offer"
                {| to := Some (_id (to_callee cl));
                   from := Some (_id (user c)); caller_name := None;
                   Relay.callType := None; offer := Some (creates env);
                   answer := None; candidate := None |}] ∧
  localDescription <$> conns (after r2) !! p = Some (Some (creates env)) ∧
  tracks (after r2) = tracks (after r1) ∧
  (∀ env' a c' d, a ≠ received ready_for_offer →
     Emitted "webrtc-offer" d ∉ trace (step env' a c')) ∧
  (∀ env' f c',
     trace (step env' (received (prepare_call f)) c')
     = replicate (prepare_listeners c')
         (Emitted "ready-for-offer" (to_from f None))).
Proof.
  intros Ht Hr Hm Hi Hp Hk Hc He r1 r2 n stream.
  destruct (startCall_run env c cl rest m p k) as
    (Hv1 & Ht1 & Htr1 & Hm1 & Hk1 & Hr1 & Hti1); try done.
  fold r1 n stream in Hv1, Ht1, Htr1, Hm1, Hk1, Hr1, Hti1.
  assert (Hsend : ∀ l, senders (foldl (λ k t, add_sender t k) k l)
                       = senders k ++ l).
  { intros l. clear. revert k. induction l as [|t l IH]; intros k; cbn.
    - by rewrite app_nil_r.
    - rewrite IH. cbn. by rewrite <- (assoc_L (++)). }
  assert (Hrest : ∀ l,
            closed (foldl (λ k t, add_sender t k) k l) = closed k ∧
            localDescription (foldl (λ k t, add_sender t k) k l)
            = localDescription k).
  { intros l. clear. revert k.
    induction l as [|t l IH]; intros k; cbn; [done|]. by rewrite !(proj1 (IH _)), !(proj2 (IH _)). }
  assert (Hrun2 := ready_run env (after r1) cl (set_localStream stream m) p
                     (foldl (λ k t, add_sender t k) k stream)).
  rewrite Hr1, Hr, Hm1 in Hrun2. specialize (Hrun2 eq_refl eq_refl Hi Hp Hk1).
  rewrite (proj1 (Hrest stream)) in Hrun2. specialize (Hrun2 Hc).
  fold r2 in Hrun2.
  assert (Huser : user (after r1) = user c).
  { apply step_keeps_user. }
  split_and!.
  - done.
  - done.
  - by rewrite Hm1.
  - by rewrite Hk1; cbn; rewrite Hsend.
  - by rewrite Hk1; cbn; rewrite (proj2 (Hrest stream)).
  - rewrite Hrun2. cbn [trace]. by rewrite Huser.
  - rewrite Hrun2. cbn. by rewrite list_lookup_alter_eq, Hk1.
  - by rewrite Hrun2.
  - intros env' a c' d Ha Hin.
    by apply (offer_only_on_ready env' a Ha c' _ Hin d).
  - intros env' f c'. by rewrite prepare_replies.
Qed.

(** The theorem at Alice's tab when Bob has accepted her video call. *)
Lemma offer_follows_ready_alice :
  trace (step willing timer_fires alice_accepted)
  = [Emitted "prepare-call" (to_from (Some "u2") (Some "u1"))].
Proof.
  refine (proj1 (offer_follows_ready willing alice_accepted
            {| of_instance := 0; to_callee := u2; with_video := true |} []
            {| instance := 0; pc := Some 0; localStream := None;
               remoteStream := None; inCall := false; incoming := false;
               hasLocalStream := false; leave_to := Some "u2" |}
            0
            {| closed := false; localDescription := None;
               remoteDescription := None; senders := [];
               remoteCandidates := [] |}
            eq_refl eq_refl eq_refl eq_refl eq_refl eq_refl eq_refl eq_refl)).
Defined.

(** C5 as stated fails: in the step that sends "prepare-call", before
    any "ready-for-offer" has been received, Alice's tab has already
    acquired camera and microphone and attached both tracks. *)
Lemma media_before_ready :
  let r := step willing timer_fires alice_accepted in
  localStream <$> modal alice_accepted = Some None ∧
  trace r = [Emitted "prepare-call" (to_from (Some "u2") (Some "u1"))] ∧
  length (ready_once (after r)) = 1 ∧
  localStream <$> modal (after r) = Some (Some [0; 1]) ∧
  live_tracks (after r) [0; 1] = [0; 1] ∧
  senders <$> conns (after r) !! 0 = Some [0; 1] ∧
  localDescription <$> conns (after r) !! 0 = Some None.
Proof. by vm_compute. Qed.

(** C6, as amended.  Observing a remote track never changes the phase a
    tab is in: it only collects the track.  A tab becomes active through
    the description handlers: the caller's when the answer has been
    applied, the callee's when the offer has been applied, local media
    acquired and the answer sent; neither looks at the remote tracks. *)
Theorem active_follows_description env c m p k :
  modal c = Some m → pc m = Some p → conns c !! p = Some k →
  closed k = false → accepts_description env = true →
  grants_media env = true →
  (∀ env' streams c',
     phase (after (step env' (track_arrives streams) c')) = phase c') ∧
  (∀ data sdp, answer data = Some sdp →
     let r := step env (received (webrtc_answer data)) c in
     inCall <$> modal (after r) = Some true ∧
     remoteStream <$> modal (after r) = Some (remoteStream m) ∧
     (incoming m = false → phase (after r) = Active)) ∧
  (∀ data sdp, offer data = Some sdp →
     let r := step env (received (webrtc_offer data)) c in
     inCall <$> modal (after r) = Some true ∧
     remoteStream <$> modal (after r) = Some (remoteStream m) ∧
     fst <$> emitted (trace r) = ["webrtc-answer"] ∧
     (incoming m = false → phase (after r) = Active)).
Proof.
  intros Hm Hp Hk Hc Hd Hg. split_and!.
  - intros env' streams c'. apply ontrack_keeps_phase.
  - intros data sdp Ha r. subst r.
    rewrite (handleAnswer_run env c m p k data sdp) by done. cbn.
    split_and!; [done..|]. unfold phase. cbn. by intros ->.
  - intros data sdp Ho r.
    destruct (handleOffer_run env c m p k data sdp) as (_ & Ht & Hm' & _);
      try done.
    fold r in Ht, Hm'. rewrite Hm', Ht. cbn.
    split_and!; [done..|]. unfold phase. rewrite Hm'. cbn. by intros ->.
Qed.

(** The theorem at Alice's tab once her offer is out, for Bob's answer. *)
Lemma active_follows_description_alice :
  let r := step willing (received (webrtc_answer from_u2)) alice_offered in
  inCall <$> modal (after r) = Some true ∧
  remoteStream <$> modal (after r) = Some None ∧
  (false = false → phase (after r) = Active).
Proof.
  refine (proj1 (proj2 (active_follows_description willing alice_offered
            {| instance := 0; pc := Some 0; localStream := Some [0; 1];
               remoteStream := None; inCall := false; incoming := false;
               hasLocalStream := true; leave_to := Some "u2" |}
            0
            {| closed := false; localDescription := Some "sdp";
               remoteDescription := None; senders := [0; 1];
               remoteCandidates := [] |}
            eq_refl eq_refl eq_refl eq_refl eq_refl eq_refl))
            from_u2 "sdp" eq_refl).
Defined.

(** C6 as stated fails, both ways: in Alice's tab, waiting for the
    answer, a first remote track is observed and the tab still shows
    "Connecting..."; the answer makes it active while no remote track
    has been observed. *)
Lemma active_without_track :
  let seen := after (step willing (track_arrives [[7]]) alice_offered) in
  let answered :=
    after (step willing (received (webrtc_answer from_u2)) alice_offered) in
  phase alice_offered = Connecting ∧
  remoteStream <$> modal seen = Some (Some [7]) ∧ phase seen = Connecting ∧
  remoteStream <$> modal answered = Some None ∧ phase answered = Active.
Proof. by vm_compute. Qed.

(** C7.  In the state a closed call leaves, a further "end-call" and a
    stray offer, answer or ICE candidate change nothing, emit nothing,
    log nothing and throw nothing. *)
Theorem stale_signal_ignored env c ev :
  ended c = true → stale ev = true →
  step env (received ev) c = {| value := Some tt; after := c; trace := [] |}.
Proof. apply stale_ignored. Qed.

(** The theorem at a second "end-call" after Alice has hung up. *)
Lemma stale_signal_ignored_alice :
  step willing (received end_call) alice_hung_up
  = {| value := Some tt; after := alice_hung_up; trace := [] |}.
Proof.
  apply (stale_signal_ignored willing alice_hung_up end_call);
    reflexivity.
Defined.

End call_claims.

(** * More on the relay *)

Section relay_more.
Import Relay Example.
Implicit Types (σ : Adapter) (sid room ev : string) (p : Payload).

Lemma on_setup_run σ sid u :
  _id u ≠ "" →
  on_setup sid (Some u) σ
  = {| value := Some tt; after := <[sid := {[_id u]} ∪ σ !!! sid]> σ;
       trace := [Logged "connected";
                 Sent {| target := sid; event := "connected";
                         payload := NoPayload |}] |}.
Proof. intros Hid. unfold on_setup. by rewrite decide_False. Qed.

Lemma io_to_emit_logged σ room ev p :
  logged (trace (io_to_emit room ev p σ)) = [].
Proof. unfold io_to_emit. cbn [trace]. by induction (elements _). Qed.

(** X1.  "setup" with a user id binds the socket to the identity room
    of that id and acknowledges to that socket alone, once; the rooms
    the socket was in stay, so a second identity is added to the first;
    no other socket is touched; repeating it changes nothing more.
    Without a user object, or with an empty id, "setup" does nothing at
    all: no room, no acknowledgement, no log line. *)
Theorem setup_registers σ sid u :
  _id u ≠ "" →
  let r := on_setup sid (Some u) σ in
  value r = Some tt ∧
  sent (trace r)
  = [{| target := sid; event := "connected"; payload := NoPayload |}] ∧
  after r !!! sid = {[_id u]} ∪ σ !!! sid ∧
  sid ∈ sockets_in (after r) (_id u) ∧
  (∀ x, x ≠ sid → after r !! x = σ !! x) ∧
  after (on_setup sid (Some u) (after r)) = after r ∧
  on_setup sid None σ = {| value := Some tt; after := σ; trace := [] |} ∧
  (∀ n, on_setup sid (Some {| _id := ""; name := n |}) σ
        = {| value := Some tt; after := σ; trace := [] |}).
Proof.
  intros Hid r. subst r. rewrite !on_setup_run by done.
  cbn [value after trace]. split_and!; try done.
  - by rewrite lookup_total_insert_eq.
  - apply elem_of_sockets_in. eexists. rewrite lookup_insert_eq.
    split; [done|]. apply elem_of_union. left. by apply elem_of_singleton.
  - intros x Hx. by rewrite lookup_insert_ne.
  - rewrite lookup_total_insert_eq, insert_insert_eq. f_equal.
    by rewrite (assoc_L (∪)), (idemp_L (∪)).
Qed.

(** The theorem at Bob registering a third tab. *)
Lemma setup_registers_bob :
  sent (trace (on_setup "B3" (Some u2) (connect "B3" office)))
  = [{| target := "B3"; event := "connected"; payload := NoPayload |}].
Proof.
  refine (proj1 (proj2 (setup_registers (connect "B3" office) "B3" u2 _))).
  discriminate.
Defined.

(** X2.  Each of the eight call-signaling handlers writes exactly one
    packet to every socket in the room named by [data.to], the sender's
    own socket included when it is in that room, and none to any other
    socket; it logs nothing, throws nothing and leaves every room as it
    was.  Offer, answer, candidate and end-call carry the data they came
    with; the dial carries [from], [name] and [callType]; accept, prepare
    and ready carry [from] alone. *)
Theorem signaling_fanout σ data t :
  to data = Some t →
  Forall (λ h : CallData → Handler unit,
            let r := h data σ in
            value r = Some tt ∧ after r = σ ∧ logged (trace r) = [] ∧
            ∀ x, length (received x (trace r))
                 = if decide (x ∈ sockets_in σ t) then 1 else 0)
    signaling ∧
  Forall (λ hp : (CallData → Handler unit) * (string * Payload),
            ∀ e, e ∈ sent (trace (hp.1 data σ)) →
                 event e = hp.2.1 ∧ payload e = hp.2.2)
    [(on_call_user,
       ("incoming-call",
        IncomingCall (from data) (caller_name data) (Relay.callType data)));
     (on_call_accepted, ("call-accepted", FromOnly (from data)));
     (on_prepare_call, ("prepare-call", FromOnly (from data)));
     (on_ready_for_offer, ("ready-for-offer", FromOnly (from data)));
     (on_webrtc_offer, ("webrtc-offer", OfData data));
     (on_webrtc_answer, ("webrtc-answer", OfData data));
     (on_webrtc_ice_candidate, ("webrtc-ice-candidate", OfData data));
     (on_end_call, ("end-call", OfData data))].
Proof.
  intros Hto. split.
  - unfold signaling.
    repeat apply Forall_cons_2; [..|apply Forall_nil_2];
      unfold on_call_user, on_call_accepted, on_prepare_call,
        on_ready_for_offer, on_webrtc_offer, on_webrtc_answer,
        on_webrtc_ice_candidate, on_end_call;
      rewrite Hto; cbn [io_to_emit_opt]; cbv zeta;
      (split_and!; [done|done|apply io_to_emit_logged|]);
      intros x; apply io_to_emit_received.
  - repeat apply Forall_cons_2; [..|apply Forall_nil_2];
      cbn [fst snd];
      unfold on_call_user, on_call_accepted, on_prepare_call,
        on_ready_for_offer, on_webrtc_offer, on_webrtc_answer,
        on_webrtc_ice_candidate, on_end_call;
      rewrite Hto; cbn [io_to_emit_opt];
      intros e He; by apply io_to_emit_sent in He as (? & ? & _).
Qed.

(** The theorem at Alice's offer to Bob, who has two tabs. *)
Lemma signaling_fanout_offer :
  Forall (λ h : CallData → Handler unit,
            let r := h from_u1 office in
            value r = Some tt ∧ after r = office ∧ logged (trace r) = [] ∧
            ∀ x, length (received x (trace r))
                 = if decide (x ∈ sockets_in office "u2") then 1 else 0)
    signaling.
Proof. exact (proj1 (signaling_fanout office from_u1 "u2" eq_refl)). Defined.

(** X3.  A "new message" whose chat lists members but which has no
    sender makes the handler throw at the first member, before anything
    is emitted: no member is notified and nothing is logged. *)
Theorem new_message_without_sender σ message u us :
  sender message = None →
  chat message ≫= users = Some (u :: us) →
  on_new_message message σ = {| value := None; after := σ; trace := [] |}.
Proof.
  intros Hs Hus. unfold on_new_message. rewrite Hus. cbn [forEach].
  unfold sender_id. rewrite Hs. done.
Qed.

(** The theorem at a message to Alice and Bob that lost its sender. *)
Lemma new_message_without_sender_hello :
  on_new_message orphan office
  = {| value := None; after := office; trace := [] |}.
Proof.
  exact (new_message_without_sender office orphan u1 [u2] eq_refl eq_refl).
Defined.

(** X4.  "disconnecting" broadcasts with [io.to], so every packet for a
    room also goes to the leaving socket, which is still in it: it is
    addressed once per room it is in other than its own.  A socket that
    never registered nor joined a chat notifies nobody. *)
Theorem disconnecting_addresses_self σ sid rs :
  σ !! sid = Some rs →
  length (received sid (trace (on_disconnecting sid σ)))
  = length (filter (λ room, room ≠ sid) (elements rs)) ∧
  (rs ⊆ {[sid]} → trace (on_disconnecting sid σ) = []).
Proof.
  intros Hrs. rewrite on_disconnecting_run. cbn [trace].
  rewrite lookup_total_alt, Hrs. cbn [default from_option]. unfold id.
  split.
  - rewrite broadcasts_received.
    assert (Hall : Forall (λ room, sid ∈ sockets_in σ room) (elements rs)).
    { apply Forall_forall. intros room Hroom%elem_of_elements.
      apply elem_of_sockets_in. eauto. }
    revert Hall. generalize (elements rs). intros l Hall.
    induction Hall as [|room rooms Hroom _ IH]; [done|].
    rewrite !filter_cons. case_decide; [|done].
    rewrite filter_cons, decide_True by done. cbn [length]. by f_equal.
  - intros Hsub. rewrite filter_none; [done|].
    intros room Hroom%elem_of_elements Hne. apply Hne.
    apply Hsub in Hroom. by apply elem_of_singleton in Hroom.
Qed.

(** The theorem at Alice's tab, which is in [u1], [c1] and [c2]. *)
Lemma disconnecting_addresses_self_A :
  length (received "A" (trace (on_disconnecting "A" office)))
  = length (filter (λ room, room ≠ "A") (elements ({["A"; "u1"; "c1"; "c2"]} : gset string))).
Proof.
  refine (proj1 (disconnecting_addresses_self office "A" _ _)).
  by vm_compute.
Defined.

End relay_more.

(** * More on the call life cycle *)

Section call_more.
Import Relay Call Example CallTactics.
Implicit Types (c : Client) (m : CallModal) (k : PeerConnection) (env : Browser).

Lemma find_first_other (me : string) (pre post : list User) (other : User) :
  Forall (λ u, _id u = me) pre → _id other ≠ me →
  find (λ u, bool_decide (_id u ≠ me)) (pre ++ other :: post) = Some other.
Proof.
  intros Hpre Hother. induction Hpre as [|u pre Hu _ IH]; cbn.
  - by rewrite bool_decide_eq_true_2.
  - by rewrite bool_decide_eq_false_2 by (by intros ?).
Qed.

Lemma find_no_other (me : string) (us : list User) :
  Forall (λ u, _id u = me) us →
  find (λ u, bool_decide (_id u ≠ me)) us = None.
Proof.
  induction 1 as [|u us Hu _ IH]; cbn; [done|].
  by rewrite bool_decide_eq_false_2 by (by intros ?).
Qed.

(** X5.  Pressing a call button dials the first member of the open chat
    whose id is not the user's own, and nobody else: one "call-user"
    with the user's id and name and the call type goes out, and with no
    call open before, the modal is mounted with a fresh peer connection,
    waiting ("Connecting...").  Without an open chat, or in a chat that
    lists only the user, pressing the button does nothing at all. *)
Theorem initiateCall_dials env c type pre other post :
  activeChat (page c) = Some (pre ++ other :: post) →
  Forall (λ u, _id u = _id (user c)) pre → _id other ≠ _id (user c) →
  modal c = None → caller (page c) = None →
  let r := step env (click_call type) c in
  value r = Some tt ∧
  trace r = [Emitted "call-user"
               {| to := Some (_id other); from := Some (_id (user c));
                  caller_name := Some (name (user c));
                  Relay.callType := Some type;
                  offer := None; answer := None; candidate := None |}] ∧
  page (after r)
  = {| activeChat := activeChat (page c); showCallModal := true;
       caller := None; callee := Some other; callAccepted := false;
       callType := type |} ∧
  modal (after r)
  = Some {| instance := instances c; pc := Some (length (conns c));
            localStream := None; remoteStream := None; inCall := false;
            incoming := false; hasLocalStream := false;
            leave_to := if decide (_id other = "") then None
                        else Some (_id other) |} ∧
  phase (after r) = Connecting ∧
  conns (after r) !! length (conns c)
  = Some {| closed := false; localDescription := None;
            remoteDescription := None; senders := [];
            remoteCandidates := [] |} ∧
  timers (after r) = timers c ∧ tracks (after r) = tracks c ∧
  (∀ c', activeChat (page c') = None →
         step env (click_call type) c'
         = {| value := Some tt; after := c'; trace := [] |}) ∧
  (∀ c' us, activeChat (page c') = Some us →
            Forall (λ u, _id u = _id (user c')) us →
            step env (click_call type) c'
            = {| value := Some tt; after := c'; trace := [] |}).
Proof.
  intros Hchat Hpre Hother Hm Hcaller r. subst r.
  split_and!.
  1-8: destruct c as [u [chat show cr ce acc ty] mo n ts ks pl ro ti];
    cbn in *; subst; unfold_call; crank;
    rewrite (find_first_other (_id u) pre post other) by done; crank;
    try done.
  - by rewrite lookup_app_r, Nat.sub_diag by done.
  - intros c' Hnone. unfold_call. crank. done.
  - intros c' us Hus Hall. unfold_call. crank.
    by rewrite (find_no_other (_id (user c')) us).
Qed.

(** The theorem at Alice pressing the video button in her chat with Bob. *)
Lemma initiateCall_dials_alice :
  trace (step willing (click_call "video") (init u1 (Some [u1; u2])))
  = [Emitted "call-user"
       {| to := Some "u2"; from := Some "u1"; caller_name := Some "alice";
          Relay.callType := Some "video";
          offer := None; answer := None; candidate := None |}].
Proof.
  refine (proj1 (proj2 (initiateCall_dials willing (init u1 (Some [u1; u2]))
            "video" [u1] u2 [] eq_refl _ _ eq_refl eq_refl))).
  - repeat constructor.
  - discriminate.
Defined.

(** X6.  An "incoming-call" that finds no call open mounts the modal
    ringing for the caller named in the event, of the announced call
    type, or of type video when none is announced.  It creates a peer
    connection, acquires no media, emits nothing and schedules
    nothing. *)
Theorem incoming_call_rings env c f n t :
  modal c = None →
  let r := step env (received (incoming_call f n t)) c in
  value r = Some tt ∧ trace r = [] ∧
  page (after r)
  = {| activeChat := activeChat (page c); showCallModal := true;
       caller := Some {| _id := f; name := n |}; callee := None;
       callAccepted := false; callType := type_or_video t |} ∧
  modal (after r)
  = Some {| instance := instances c; pc := Some (length (conns c));
            localStream := None; remoteStream := None; inCall := false;
            incoming := true; hasLocalStream := false;
            leave_to := Some f |} ∧
  phase (after r) = Ringing ∧
  tracks (after r) = tracks c ∧ timers (after r) = timers c ∧
  ready_once (after r) = ready_once c.
Proof.
  intros Hm r. subst r.
  destruct c as [u [chat show cr ce acc ty] mo nn ts ks pl ro ti];
    cbn in *; subst; unfold_call; crank. done.
Qed.

(** The theorem at Bob's tab when Alice dials. *)
Lemma incoming_call_rings_bob :
  phase (after (step willing
                  (received (incoming_call "u1" "alice" (Some "video")))
                  (init u2 (Some [u1; u2])))) = Ringing.
Proof.
  exact (proj1 (proj2 (proj2 (proj2 (proj2
    (incoming_call_rings willing (init u2 (Some [u1; u2])) "u1" "alice"
       (Some "video") eq_refl)))))).
Defined.

(** X7.  An "incoming-call" that arrives while a call modal is open is
    not refused: nothing is sent back.  The caller shown is replaced,
    the peer connection in use is closed and a fresh one, without
    tracks or descriptions, takes its place; the modal keeps its
    [incoming] and [inCall] flags and its local stream, and no track is
    stopped. *)
Theorem incoming_call_during_call env c m p k f n t :
  modal c = Some m → showCallModal (page c) = true →
  pc m = Some p → conns c !! p = Some k →
  let r := step env (received (incoming_call f n t)) c in
  value r = Some tt ∧ trace r = [] ∧
  caller (page (after r)) = Some {| _id := f; name := n |} ∧
  closed <$> conns (after r) !! p = Some true ∧
  pc <$> modal (after r) = Some (Some (length (conns c))) ∧
  conns (after r) !! length (conns c)
  = Some {| closed := false; localDescription := None;
            remoteDescription := None; senders := [];
            remoteCandidates := [] |} ∧
  incoming <$> modal (after r) = Some (incoming m) ∧
  inCall <$> modal (after r) = Some (inCall m) ∧
  localStream <$> modal (after r) = Some (localStream m) ∧
  tracks (after r) = tracks c.
Proof.
  intros Hm Hshow Hp Hk r. subst r.
  assert (Hlt : p < length (conns c)) by (by eapply lookup_lt_Some).
  destruct c as [u [chat show cr ce acc ty] mo nn ts ks pl ro ti];
    cbn in *; subst; unfold_call; crank.
  repeat (case_bool_decide; crank);
    destruct ce, acc; crank; try discriminate;
    (split_and!; try done;
     first
       [ rewrite lookup_app_l by (rewrite length_alter; lia);
         by rewrite list_lookup_alter_eq, Hk
       | rewrite lookup_app_r by (rewrite length_alter; lia);
         by rewrite length_alter, Nat.sub_diag
       | by rewrite length_alter ]).
Qed.

(** The theorem at Alice's tab, in a call with Bob, when Carol dials. *)
Lemma incoming_call_during_call_alice :
  let r := step willing (received (incoming_call "u3" "carol" None))
             alice_answered in
  value r = Some tt ∧ trace r = [] ∧
  caller (page (after r)) = Some {| _id := "u3"; name := "carol" |} ∧
  closed <$> conns (after r) !! 0 = Some true.
Proof.
  pose proof (incoming_call_during_call willing alice_answered
    (setInCall true
       {| instance := 0; pc := Some 0; localStream := Some [0; 1];
          remoteStream := None; inCall := false; incoming := false;
          hasLocalStream := true; leave_to := Some "u2" |})
    0
    {| closed := false; localDescription := Some "sdp";
       remoteDescription := Some "sdp"; senders := [0; 1];
       remoteCandidates := [] |}
    "u3" "carol" None eq_refl eq_refl eq_refl eq_refl) as H.
  cbv zeta in H. cbv zeta. repeat split; apply H.
Defined.

(** X8.  Hanging up, and likewise a "peer-disconnected" event, releases
    the call from whatever phase it is in: the peer connection is
    closed, every track of the local stream is stopped, exactly one
    "end-call" is emitted, and the tab is left in the ended state; no
    error is logged. *)
Theorem hangup_releases env c m :
  modal c = Some m →
  Forall (λ at_ : Action * option string,
            let r := step env at_.1 c in
            value r = Some tt ∧
            trace r = [Emitted "end-call" (to_from at_.2 None)] ∧
            ended (after r) = true ∧ phase (after r) = Ended ∧
            (∀ ts, localStream m = Some ts → live_tracks (after r) ts = []) ∧
            (∀ p k, pc m = Some p → conns c !! p = Some k →
                    closed <$> conns (after r) !! p = Some true))
    [(click_end, target_of (page c));
     (received peer_disconnected, leave_to m)].
Proof.
  intros Hm.
  assert (Hend : ∀ c', ended c' = true → phase c' = Ended).
  { intros c'. unfold ended, phase. destruct (modal c'); [|done].
    by rewrite bool_decide_eq_false_2. }
  assert (Hclick : step env click_end c
                   = endCall (instance m) (target_of (page c)) c).
  { destruct c; cbn in *; subst. unfold step. crank. done. }
  assert (Hleave : step env (received peer_disconnected) c
                   = endCall (instance m) (leave_to m) c).
  { destruct c; cbn in *; subst.
    unfold step, receive, handlePeerLeave, mounted. crank. done. }
  repeat apply Forall_cons_2; [..|apply Forall_nil_2]; cbn [fst snd]; cbv zeta;
    rewrite ?Hclick, ?Hleave;
    destruct (endCall_releases c m (target_of (page c)) Hm)
      as (? & ? & ? & ? & ?);
    destruct (endCall_releases c m (leave_to m) Hm) as (? & ? & ? & ? & ?);
    split_and!; try done; by apply Hend.
Qed.

(** The theorem at Alice's tab, in a call with Bob. *)
Lemma hangup_releases_alice :
  Forall (λ at_ : Action * option string,
            let r := step willing at_.1 alice_answered in
            value r = Some tt ∧
            trace r = [Emitted "end-call" (to_from at_.2 None)] ∧
            ended (after r) = true ∧ phase (after r) = Ended ∧
            (∀ ts, Some [0; 1] = Some ts → live_tracks (after r) ts = []) ∧
            (∀ p k, Some 0 = Some p → conns alice_answered !! p = Some k →
                    closed <$> conns (after r) !! p = Some true))
    [(click_end, Some "u2"); (received peer_disconnected, Some "u2")].
Proof.
  exact (hangup_releases willing alice_answered
    (setInCall true
       {| instance := 0; pc := Some 0; localStream := Some [0; 1];
          remoteStream := None; inCall := false; incoming := false;
          hasLocalStream := true; leave_to := Some "u2" |}) eq_refl).
Defined.

(** X9.  When the browser refuses camera or microphone the peer is told
    nothing.  On the caller [startCall] logs the error and stops there:
    no "prepare-call", no "end-call", the modal stays open as it was.
    On the callee [handleOffer] has by then applied the offer as remote
    description; it logs the error and sends neither an answer nor an
    "end-call", and the call is not marked active. *)
Theorem media_denied_silent env c m p k :
  grants_media env = false →
  modal c = Some m → pc m = Some p → conns c !! p = Some k →
  closed k = false →
  (∀ cl rest, timers c = cl :: rest →
     step env timer_fires c
     = {| value := Some tt; after := set_timers rest c;
          trace := [ConsoleError "startCall error:"] |}) ∧
  (∀ data sdp, offer data = Some sdp → accepts_description env = true →
     step env (received (webrtc_offer data)) c
     = {| value := Some tt;
          after := set_conns (alter (set_remoteDescription sdp) p (conns c)) c;
          trace := [ConsoleError "handleOffer error"] |}).
Proof.
  intros Hg Hm Hp Hk Hc. split.
  - intros cl rest Ht. destruct c. cbn in *. subst.
    unfold_call. crank. done.
  - intros data sdp Hd Ha. destruct c. cbn in *. subst.
    unfold_call. crank. done.
Qed.

(** The theorem at Bob's tab when his browser refuses the camera. *)
Lemma media_denied_silent_bob :
  step refusing (received (webrtc_offer from_u1)) bob_accepted
  = {| value := Some tt;
       after := set_conns (alter (set_remoteDescription "sdp") 0
                             (conns bob_accepted)) bob_accepted;
       trace := [ConsoleError "handleOffer error"] |}.
Proof.
  exact (proj2 (media_denied_silent refusing bob_accepted
    (setIncoming false
       {| instance := 0; pc := Some 0; localStream := None;
          remoteStream := None; inCall := false; incoming := true;
          hasLocalStream := false; leave_to := Some "u1" |})
    0
    {| closed := false; localDescription := None;
       remoteDescription := None; senders := [];
       remoteCandidates := [] |}
    eq_refl eq_refl eq_refl eq_refl eq_refl) from_u1 "sdp" eq_refl eq_refl).
Defined.

(** X10.  "call-accepted" schedules [startCall] once.  On the dialling
    tab the first one marks the call accepted and leaves one timer for
    [startCall], with the callee and the media kind of the call; it
    emits nothing.  A repeated "call-accepted" changes nothing and
    schedules nothing. *)
Theorem call_accepted_once env c m u :
  rendered c = true → modal c = Some m → callee (page c) = Some u →
  inCall m = false →
  (callAccepted (page c) = false →
   let r := step env (received call_accepted) c in
   value r = Some tt ∧ trace r = [] ∧
   callAccepted (page (after r)) = true ∧
   modal (after r) = Some m ∧ conns (after r) = conns c ∧
   timers (after r)
   = timers c ++ [{| of_instance := instance m; to_callee := u;
                     with_video := wants_video (page c) |}]) ∧
  (callAccepted (page c) = true →
   step env (received call_accepted) c
   = {| value := Some tt; after := c; trace := [] |}).
Proof.
  intros Hr Hm Hu Hin.
  destruct c as [me [chat show cr ce acc ty] mo nn ts ks pl ro ti].
  unfold rendered in Hr. cbn in *. subst. split; intros ->.
  - unfold_call. crank. repeat (case_bool_decide; crank); done.
  - unfold_call. crank. repeat (case_bool_decide; crank); done.
Qed.

(** The theorem at Alice's tab: Bob's accept, and a repeated one. *)
Lemma call_accepted_once_alice :
  step willing (received call_accepted) alice_accepted
  = {| value := Some tt; after := alice_accepted; trace := [] |}.
Proof.
  exact (proj2 (call_accepted_once willing alice_accepted
    {| instance := 0; pc := Some 0; localStream := None;
       remoteStream := None; inCall := false; incoming := false;
       hasLocalStream := false; leave_to := Some "u2" |}
    u2 eq_refl eq_refl eq_refl eq_refl) eq_refl).
Defined.

(** X11.  Accepting a ringing call emits one "call-accepted" to the
    caller, with the user's own id as sender, and takes the modal from
    ringing to "Connecting..."; nothing else changes, in particular no
    media is acquired yet.  Declining instead emits "end-call" to the
    caller and closes the modal. *)
Theorem accept_or_decline env c m u :
  modal c = Some m → incoming m = true → inCall m = false →
  caller (page c) = Some u → callee (page c) = None →
  step env click_accept c
  = {| value := Some tt; after := set_modal (Some (setIncoming false m)) c;
       trace := [Emitted "call-accepted"
                   (to_from (Some (_id u)) (Some (_id (user c))))] |} ∧
  phase c = Ringing ∧
  phase (after (step env click_accept c)) = Connecting ∧
  trace (step env click_end c)
  = [Emitted "end-call" (to_from (Some (_id u)) None)] ∧
  phase (after (step env click_end c)) = Ended.
Proof.
  intros Hm Hi Hn Hu He.
  destruct (Forall_cons_1 _ _ _ (hangup_releases env c m Hm))
    as [(_ & Htr & _ & Hph & _) _]. cbn [fst snd] in Htr, Hph.
  assert (Ht : target_of (page c) = Some (_id u)).
  { unfold target_of. rewrite He, Hu. done. }
  rewrite Ht in Htr.
  split_and!; [|by unfold phase; rewrite Hm, Hi| |done|done].
  - destruct c. cbn in *. subst. unfold_call. crank. done.
  - destruct c. cbn in *. subst. unfold_call. crank.
    unfold phase. cbn. by rewrite ?Hn.
Qed.

(** The theorem at Bob's tab while Alice's call is ringing. *)
Lemma accept_or_decline_bob :
  step willing click_accept bob_ringing
  = {| value := Some tt; after := bob_accepted;
       trace := [Emitted "call-accepted" (to_from (Some "u1") (Some "u2"))] |}.
Proof.
  refine (proj1 (accept_or_decline willing bob_ringing
    {| instance := 0; pc := Some 0; localStream := None;
       remoteStream := None; inCall := false; incoming := true;
       hasLocalStream := false; leave_to := Some "u1" |}
    u1 eq_refl eq_refl eq_refl eq_refl eq_refl)).
Defined.

(** ** What every run keeps *)

Ltac unfold_but_render :=
  unfold step, receive, handleOffer, handleAnswer, handleCandidate,
    handlePeerLeave, endCall, acceptCall, send_offer, startCall, ontrack,
    onicecandidate, handleEndCall, handleCallAccepted, handleIncomingCall,
    initiateCall, closeCall, getUserMedia, addIceCandidate, addTrack,
    createAnswer, createOffer, setLocalDescription, setRemoteDescription,
    close, update_connection, connection, pc_current,
    update_modal, mounted, emit, console_error, stop_tracks.

Lemma run_preserves {X} (f : Client → X) :
  (∀ env a, preserves f (step env a)) →
  ∀ script c, f (run script c) = f c.
Proof.
  intros Hstep script. induction script as [|[env a] script IH]; intros c.
  - done.
  - cbn [run foldl fst snd]. etrans; [apply IH|apply Hstep].
Qed.

Lemma run_keeps (I : Client → Prop) :
  (∀ env a, keeps I (step env a)) →
  ∀ script c, I c → I (run script c).
Proof.
  intros Hstep script. induction script as [|[env a] script IH]; intros c Hc.
  - done.
  - cbn [run foldl fst snd]. by apply IH, Hstep.
Qed.

Ltac unfold_render :=
  unfold render, unmount, accepted_effect, pc_cleanup, pc_effect, close,
    new_RTCPeerConnection, update_connection, update_modal, mounted.

Lemma mount_listeners : preserves one_listener_each mount.
Proof.
  intros c. destruct c as [u [chat show cr ce acc ty] mo n ts ks pl ro ti].
  unfold_call. destruct ce, acc; crank;
    unfold one_listener_each; cbn; apply bool_decide_ext; lia.
Qed.

Lemma render_listeners old fresh :
  preserves one_listener_each (render old fresh).
Proof.
  unfold_render.
  walk_with
    ltac:(idtac; lazymatch goal with
          | |- preserves _ mount => apply mount_listeners
          end)
    ltac:(intros; repeat case_match; done).
Qed.

Lemma step_listeners env a : preserves one_listener_each (step env a).
Proof.
  destruct a as [| | | | | |[]]; unfold_but_render;
    walk_with
      ltac:(idtac; lazymatch goal with
            | |- preserves _ (render _ _) => apply render_listeners
            end)
      ltac:(intros; repeat case_match; done).
Qed.

(** X12.  The "prepare-call" listener a call modal registers is never
    removed: in every state a tab can reach, it holds as many of them as
    call modals have ever been mounted, and it answers each
    "prepare-call" with that many "ready-for-offer" events. *)
Theorem prepare_listeners_pile_up script u chat :
  let c := run script (init u chat) in
  prepare_listeners c = instances c ∧
  ∀ env f,
    trace (step env (received (prepare_call f)) c)
    = replicate (instances c) (Emitted "ready-for-offer" (to_from f None)).
Proof.
  intros c.
  assert (Hc : prepare_listeners c = instances c).
  { assert (Hb : one_listener_each c = true).
    { subst c. by rewrite (run_preserves one_listener_each step_listeners). }
    unfold one_listener_each in Hb. by apply bool_decide_eq_true in Hb. }
  split; [done|]. intros env f. by rewrite prepare_replies, Hc.
Qed.

(** *** At most one open peer connection *)

Lemma one_open_alter c p (f : PeerConnection → PeerConnection) :
  (∀ k, closed (f k) = false → closed k = false) →
  one_open c → one_open (set_conns (alter f p (conns c)) c).
Proof.
  intros Hf Hc p' k' Hl Ho. cbn in *. apply (Hc p' (default k' (conns c !! p'))).
  - destruct (decide (p = p')) as [->|Hne].
    + rewrite list_lookup_alter_eq in Hl. by destruct (conns c !! p').
    + rewrite list_lookup_alter_ne in Hl by done. by rewrite Hl.
  - destruct (decide (p = p')) as [->|Hne].
    + rewrite list_lookup_alter_eq in Hl.
      destruct (conns c !! p') as [k|]; [|done]. cbn in *.
      apply Hf. by simplify_eq.
    + rewrite list_lookup_alter_ne in Hl by done. by rewrite Hl.
Qed.

Lemma one_open_update_modal c i (f : CallModal → CallModal) :
  (∀ m, pc (f m) = pc m) →
  one_open c →
  one_open (match modal c with
            | Some m =>
                if decide (instance m = i) then set_modal (Some (f m)) c else c
            | None => c
            end).
Proof.
  intros Hf Hc. destruct (modal c) as [m|] eqn:Hm; [|done].
  case_decide; [|done]. intros p k Hl Ho. cbn in *.
  rewrite Hf. specialize (Hc p k Hl Ho). by rewrite Hm in Hc.
Qed.

(** With every connection closed, a fresh one may become [pc.current]. *)
Lemma one_open_fresh (ks : list PeerConnection) (fresh : PeerConnection)
    (p' : nat) (k' : PeerConnection) :
  (∀ p k, ks !! p = Some k → closed k = true) →
  (ks ++ [fresh]) !! p' = Some k' → closed k' = false →
  p' = length ks.
Proof.
  intros Hall Hl Ho. apply lookup_app_Some in Hl as [Hl|[Hge Hl]].
  - apply Hall in Hl. congruence.
  - apply list_lookup_singleton_Some in Hl as [? _]. lia.
Qed.

Lemma mount_one_open c :
  modal c = None → one_open c → one_open (after (mount c)).
Proof.
  intros Hm Hc.
  assert (Hall : ∀ p k, conns c !! p = Some k → closed k = true).
  { intros p k Hl. destruct (closed k) eqn:Ho; [done|].
    specialize (Hc p k Hl Ho). by rewrite Hm in Hc. }
  destruct c as [u [chat show cr ce acc ty] mo n ts ks pl ro ti].
  cbn in *. subst. unfold_call.
  destruct ce, acc; crank; intros p' k' Hl Ho; cbn in *; f_equal;
    symmetry; by eapply one_open_fresh.
Qed.

Lemma cleanup_all_closed c m :
  modal c = Some m → one_open c →
  let r := pc_cleanup (instance m) c in
  value r = Some tt ∧
  modal (after r) = Some (set_pc None m) ∧
  (∀ p k, conns (after r) !! p = Some k → closed k = true).
Proof.
  intros Hm Hc.
  destruct c as [u pg mo n ts ks pl ro ti]. cbn in *. subst. unfold_call.
  destruct (pc m) as [p|] eqn:Hp; crank; split_and!; try done.
  - intros p' k' Hl. destruct (decide (p = p')) as [->|Hne].
    + rewrite list_lookup_alter_eq in Hl.
      destruct (ks !! p') as [k0|]; cbn in Hl; [|done]. by simplify_eq.
    + rewrite list_lookup_alter_ne in Hl by done.
      destruct (closed k') eqn:Ho; [done|]. specialize (Hc p' k' Hl Ho).
      cbn in Hc. congruence.
  - by destruct m; cbn in *; subst.
  - intros p' k' Hl. destruct (closed k') eqn:Ho; [done|].
    specialize (Hc p' k' Hl Ho). cbn in Hc. congruence.
Qed.

Lemma effect_one_open c m :
  modal c = Some m →
  (∀ p k, conns c !! p = Some k → closed k = true) →
  one_open (after (pc_effect (instance m) c)).
Proof.
  intros Hm Hall.
  destruct c as [u pg mo n ts ks pl ro ti]. cbn in *. subst. unfold_call.
  crank. intros p' k' Hl Ho; cbn in *; f_equal; symmetry;
    by eapply one_open_fresh.
Qed.

Ltac one_open_leaf :=
  let σ := fresh "σ" in
  let H := fresh "H" in
  intros σ H; cbv beta in H |- *;
  first [ by apply one_open_update_modal
        | by apply one_open_alter; [intros ?; cbn|]
        | intros p k Hl Ho; by apply (H p k Hl Ho) ].

Lemma get_bind {A} (k : Client → Act A) c : (get ≫= k) c = k c c.
Proof. rewrite bind_continue. cbn. by destruct (k c c). Qed.

Lemma after_bind {A B} (m : Act A) (k : A → Act B) c a :
  value (m c) = Some a →
  after ((m ≫= k) c) = after (k a (after (m c))).
Proof.
  intros Hv. rewrite bind_continue. destruct (m c) as [v c' t].
  cbn in *. subst. by destruct (k a c').
Qed.

Lemma keeps_after_bind {A B} (I : Client → Prop) (m : Act A) (k : A → Act B) c :
  I (after (m c)) → (∀ a, keeps I (k a)) → I (after ((m ≫= k) c)).
Proof.
  intros Hm Hk. rewrite bind_continue. destruct (m c) as [[a|] c' t]; cbn in *.
  - specialize (Hk a c' Hm). by destruct (k a c').
  - done.
Qed.

Lemma render_one_open old fresh : keeps one_open (render old fresh).
Proof.
  intros c Hc. unfold render. rewrite get_bind. cbv zeta.
  destruct (modal c) as [m|] eqn:Hm, (showCallModal (page c)) eqn:Hs.
  - apply keeps_after_bind.
    + case_match; [|done].
      destruct (cleanup_all_closed c m Hm Hc) as (Hv & Hm' & Hall).
      rewrite (after_bind _ _ c tt Hv).
      by apply (effect_one_open _ (set_pc None m)).
    + intros _. unfold accepted_effect, update_modal, mounted.
      walk ltac:(idtac; one_open_leaf).
  - unfold unmount.
    destruct (cleanup_all_closed c m Hm Hc) as (Hv & Hm' & Hall).
    rewrite (after_bind _ _ c tt Hv). cbn.
    intros p k Hl Ho. cbn in *. apply Hall in Hl. congruence.
  - by apply mount_one_open.
  - done.
Qed.

Lemma step_one_open env a : keeps one_open (step env a).
Proof.
  destruct a as [| | | | | |[]]; unfold_but_render;
    walk_with
      ltac:(idtac; lazymatch goal with
            | |- keeps _ (render _ _) => apply render_one_open
            end)
      ltac:(idtac; one_open_leaf).
Qed.

(** X13.  In every state a tab can reach, at most one peer connection
    is open, and it is the one the mounted call modal works with: every
    connection of an earlier call, and every one replaced while the
    modal was open, has been closed.  With no modal mounted, none is
    open. *)
Theorem one_connection_open script u chat :
  let c := run script (init u chat) in
  (∀ p k, conns c !! p = Some k → closed k = false →
          modal c ≫= pc = Some p) ∧
  (modal c = None → ∀ p k, conns c !! p = Some k → closed k = true).
Proof.
  intros c.
  assert (Hc : one_open c).
  { apply (run_keeps one_open step_one_open). by intros p k Hl. }
  split; [exact Hc|].
  intros Hm p k Hl. destruct (closed k) eqn:Ho; [done|].
  specialize (Hc p k Hl Ho). by rewrite Hm in Hc.
Qed.

End call_more.
